(** * Tile resource lifecycle of rocky: usage tracker, update queue,
      deferred disposal and the Bing tile-URI cache

    A shallow embedding of
    - [util::SentryTracker] (src/rocky/Utils.h),
    - [PriorityUpdateQueue::run], [VSGContextImpl::dispose] and the disposal
      part of [VSGContextImpl::update] (src/rocky/vsg/VSGContext.cpp),
    - [BingImageLayer::createImageImplementation] (src/rocky/BingImageLayer.cpp),
    followed by the properties proved about them. *)

From stdpp Require Import base option list sorting gmap strings.
From Stdlib Require Import ZArith Lia.
From Stdlib.Strings Require Byte.

Set Default Proof Using "Type".

(* ===================================================================== *)
(** * Part I: definitions                                                 *)
(* ===================================================================== *)

(** ** util::SentryTracker<T> *)

Module SentryTracker.
Section tracker.
Context {T : Type}.

(** [Token] is [std::list<ListEntry>::iterator]; what [use] hands out is a
    [Token*], the address of a heap-allocated iterator.  The model names
    such an address by a number. *)
Definition Token := nat.

(** [struct ListEntry { T _data; void* _token; }] for the entries that
    [use] creates: their [_token] is never null. *)
Record ListEntry := mkListEntry { _data : T; _token : Token }.

(** [_list] with [_sentryptr]: the sentry marker
    [ListEntry(nullptr, nullptr)] is created once by [reset], is never
    erased, and [_sentryptr] always designates it.  The list is therefore
    kept split around the marker: [_list = ahead ++ sentry :: behind],
    where [ahead] runs from [_list.begin()] to the marker and [behind]
    from the marker to [_list.end()]. *)
Record t := mk { ahead : list ListEntry; behind : list ListEntry }.

(** The entries of [_list] in list order, the marker left out. *)
Definition entries (s : t) : list ListEntry := ahead s ++ behind s.

(** [_list] itself, the marker shown as [None]. *)
Definition _list (s : t) : list (option ListEntry) :=
  (Some <$> ahead s) ++ None :: (Some <$> behind s).

(** Position of the marker in [_list]: what [_sentryptr] designates. *)
Definition _sentryptr (s : t) : nat := length (ahead s).

Definition tokens (l : list ListEntry) : list Token := _token <$> l.

(** The [Token] objects currently allocated: one per entry, created with
    the entry in [use] and deleted with it in [flush]. *)
Definition live_tokens (s : t) : list Token := tokens (entries s).

(** [reset()]: clear the list and put the marker in. *)
Definition reset : t := {| ahead := []; behind := [] |}.

(** [new Token()]: an address that no live token has. *)
Definition new_Token (s : t) : Token := S (max_list (live_tokens s)).

(** Unlinks from [l] the node that the iterator stored at [ptr] designates:
    the entry whose [_token] is [ptr] ([use] stores [ptr] in the entry it
    creates and keeps [*ptr] on that entry ever after). *)
Fixpoint unlink (ptr : Token) (l : list ListEntry)
    : option (ListEntry * list ListEntry) :=
  match l with
  | [] => None
  | e :: l' =>
      if decide (_token e = ptr) then Some (e, l')
      else match unlink ptr l' with
           | Some (x, r) => Some (x, e :: r)
           | None => None
           end
  end.

(** [void* use(const T& data, void* token)].

    With a token: [_list.splice(_list.begin(), _list, *ptr)] moves the
    entry to the front of the list, ahead of the marker; [data] is not
    looked at.  A token that [flush] has deleted designates freed memory:
    the call is undefined, which the model reports as [None].

    Without one: a new [Token] is allocated and
    [_list.emplace_front(data, ptr)] puts a new entry at the front. *)
Definition use (s : t) (data : T) (token : option Token) : option (t * Token) :=
  match token with
  | Some ptr =>
      match unlink ptr (ahead s) with
      | Some (e, rest) => Some ({| ahead := e :: rest; behind := behind s |}, ptr)
      | None =>
          match unlink ptr (behind s) with
          | Some (e, rest) =>
              Some ({| ahead := e :: ahead s; behind := rest |}, ptr)
          | None => None
          end
      end
  | None =>
      let ptr := new_Token s in
      Some ({| ahead := mkListEntry data ptr :: ahead s; behind := behind s |}, ptr)
  end.

(** The user disposal function [std::function<bool(T& obj)>]; [None] is
    the null function.  It is taken to answer from the object it is given
    and to leave that object as it is. *)
Definition Disposer := option (T → bool).

Definition disposed_by (dispose : Disposer) (le : ListEntry) : bool :=
  match dispose with
  | Some f => f (_data le)
  | None => true
  end.

(** A disposal function that accepts every entry. *)
Definition accept_all : Disposer := Some (λ _, true).

(** What one [flush] did. [visited]: the entries the loop body ran on, in
    order (on each of them [dispose], when not null, was called once);
    [erased]: the entries removed from the list, whose tokens were
    deleted. *)
Record flushed := mkFlushed {
  after : t;
  visited : list ListEntry;
  erased : list ListEntry
}.

(** The loop of [flush]
    [for (++i; i != _list.end() && count < maxCount; ++i)]
    over the entries behind the marker.  Returns the entries left in
    place, the entries visited and the entries erased.  [count] never
    exceeds [maxCount], so the [unsigned] counter does not wrap. *)
Fixpoint flush_loop (dispose : Disposer) (maxCount count : nat)
    (stale : list ListEntry)
    : list ListEntry * list ListEntry * list ListEntry :=
  match stale with
  | [] => ([], [], [])
  | le :: rest =>
      if decide (count < maxCount) then
        if disposed_by dispose le then
          let '(kept, vis, del) := flush_loop dispose maxCount (S count) rest in
          (kept, le :: vis, le :: del)
        else
          let '(kept, vis, del) := flush_loop dispose maxCount count rest in
          (le :: kept, le :: vis, del)
      else (stale, [], [])
  end.

(** [void flush(unsigned maxCount, std::function<bool(T&)> dispose)]: run
    the loop from the entry after the marker, then
    [_list.splice(_list.begin(), _list, _sentryptr)] moves the marker to
    the front, so that every entry left is behind it. *)
Definition flush (maxCount : nat) (dispose : Disposer) (s : t) : flushed :=
  let '(kept, vis, del) := flush_loop dispose maxCount 0 (behind s) in
  {| after := {| ahead := []; behind := ahead s ++ kept |};
     visited := vis;
     erased := del |}.

(** A sequence of [use] calls, each with its data and the token passed;
    returns the tokens handed back, in call order. *)
Fixpoint uses (s : t) (calls : list (T * option Token))
    : option (t * list Token) :=
  match calls with
  | [] => Some (s, [])
  | (data, token) :: calls' =>
      '(s1, ptr) ← use s data token;
      '(s2, ptrs) ← uses s1 calls';
      Some (s2, ptr :: ptrs)
  end.

(** Every entry has a token of its own. *)
Definition wf (s : t) : Prop := NoDup (live_tokens s).

(** A token is valid while its entry is in the list. *)
Definition valid_token (s : t) (ptr : Token) : Prop := ptr ∈ live_tokens s.

End tracker.
Global Arguments ListEntry : clear implicits.
Global Arguments t : clear implicits.
Global Arguments flushed : clear implicits.
Global Arguments Disposer : clear implicits.
End SentryTracker.

(** ** PriorityUpdateQueue (VSGContext.cpp) *)

Module PriorityUpdateQueue.
Section queue.
(** [P] stands for the [float] a [get_priority] closure returns and [ltb]
    for [<] on it. *)
Context {P : Type} (ltb : P → P → bool).

(** A [vsg::Operation].  [as_Cancelable] is the outcome of
    [dynamic_cast<Cancelable*>]: [None] when the operation is not a
    [Cancelable], [Some c] when it is and [canceled()] answers [c] at the
    time the task is popped. *)
Record Operation := mkOperation { op_id : nat; as_Cancelable : option bool }.

(** [struct Task { vsg::ref_ptr<vsg::Operation> function;
    std::function<float()> get_priority; }]: [None] is the null pointer,
    respectively the null function.  [get_priority] holds the value the
    closure returns during this [run]. *)
Record Task := mkTask { function : option Operation; get_priority : option P }.

(** [Task task;] and [task = { };] *)
Definition empty_Task : Task := {| function := None; get_priority := None |}.

(** The comparison passed to [std::sort]. *)
Definition comp (lhs rhs : Task) : bool :=
  match get_priority lhs with
  | None => false
  | Some pl =>
      match get_priority rhs with
      | None => true
      | Some pr => ltb pl pr
      end
  end.

(** [std::sort(_queue.begin(), _queue.end(), comp)].  The standard asks
    that [comp] be a strict weak ordering, and then fixes the outcome up
    to the order of the elements that [comp] does not tell apart; with
    another [comp] (a priority that is not a number compares [false] both
    ways with every other) the call is undefined.  The model is an
    insertion sort that leaves the elements [comp] does not tell apart in
    queue order: a task goes before the first task that is not less than
    it.  It returns an ascending vector only when [comp] is a strict weak
    ordering. *)
Fixpoint insert_Task (t : Task) (sorted : list Task) : list Task :=
  match sorted with
  | [] => [t]
  | x :: rest => if comp x t then x :: insert_Task t rest else t :: sorted
  end.

Definition std_sort (q : list Task) : list Task := foldr insert_Task [] q.

(** "Sort from low to high priority": no task is less, by [comp], than a
    task that stands before it. *)
Definition ascending : list Task → Prop :=
  StronglySorted (λ a b, comp b a = false).

(** [po == nullptr || !po->canceled()] negated: the popped task is
    discarded.  A null [function] casts to a null [po]. *)
Definition discarded (task : Task) : bool :=
  match function task with
  | Some op =>
      match as_Cancelable op with
      | Some c => c
      | None => false
      end
  | None => false
  end.

(** The loop [while (!_queue.empty())], on the vector read from its back:
    [task = _queue.back(); _queue.pop_back();] then [break] unless the
    task is canceled, in which case [task = { }].  Returns [task] and what
    is left of the vector (still back first). *)
Fixpoint pop_loop (back_first : list Task) : Task * list Task :=
  match back_first with
  | [] => (empty_Task, [])
  | task :: below =>
      if discarded task then pop_loop below else (task, below)
  end.

(** [void run()]: returns the queue left and the operation whose [run()]
    was called, if any ([if (task.function) task.function->run()]). *)
Definition run (_queue : list Task) : list Task * option Operation :=
  match _queue with
  | [] => ([], None)
  | _ :: _ =>
      let '(task, below) := pop_loop (reverse (std_sort _queue)) in
      (reverse below, function task)
  end.

(** [n] frames, [run] once per frame: the operations run, frame by
    frame. *)
Fixpoint run_frames (n : nat) (_queue : list Task)
    : list Task * list (option Operation) :=
  match n with
  | 0 => (_queue, [])
  | S n' =>
      let '(q1, ran) := run _queue in
      let '(q2, rans) := run_frames n' q1 in
      (q2, ran :: rans)
  end.

(** [VSGContextImpl::onNextUpdate(function, get_priority)], with
    [viewer] for [viewer.valid()]: with a null viewer the call returns at
    once ([ROCKY_SOFT_ASSERT_AND_RETURN]), otherwise [_queue.push_back]. *)
Definition onNextUpdate (viewer : bool) (_queue : list Task)
    (f : option Operation) (get_priority : option P) : list Task :=
  if viewer then _queue ++ [mkTask f get_priority] else _queue.

End queue.
Global Arguments Task : clear implicits.
End PriorityUpdateQueue.

(** ** VSGContextImpl: deferred disposal (VSGContext.cpp) *)

Module VSGContextImpl.
Section context.
(** [Object] stands for [vsg::Object]; an [option Object] is a
    [vsg::ref_ptr<vsg::Object>], [None] the null pointer.  [User] is
    whatever state a custom disposer works on. *)
Context {Object User : Type}.

(** The members that [dispose] and [update] read and write.  [viewer]
    is the [vsg::ref_ptr<vsg::Viewer>], as far as [viewer.valid()] tells:
    [false] is the null pointer.  [disposer] is the [std::function] a
    user may install ([None]: not installed); calling it hands the object
    over to the user. *)
Record t := mk {
  viewer : bool;
  disposer : option (Object → User → User);
  _disposal_queue : list (list Object);
  user : User
  }.

(** The constructor: [viewer(viewer_)], [_disposal_queue.resize(8)], no
    disposer. *)
Definition ctor (viewer_ : bool) (u : User) : t :=
  {| viewer := viewer_; disposer := None;
     _disposal_queue := replicate 8 []; user := u |}.

(** [_disposal_queue.back().emplace_back(object)].  The deque is never
    empty once constructed ([update] keeps its size). *)
Fixpoint back_emplace_back (q : list (list Object)) (object : Object)
    : list (list Object) :=
  match q with
  | [] => []
  | [back] => [back ++ [object]]
  | front :: rest => front :: back_emplace_back rest object
  end.

(** [void dispose(vsg::ref_ptr<vsg::Object> object)] *)
Definition dispose (s : t) (object : option Object) : t :=
  match object with
  | Some o =>
      match disposer s with
      | Some f =>
          {| viewer := viewer s;
             disposer := disposer s;
             _disposal_queue := _disposal_queue s;
             user := f o (user s) |}
      | None =>
          {| viewer := viewer s;
             disposer := disposer s;
             _disposal_queue := back_emplace_back (_disposal_queue s) o;
             user := user s |}
      end
  | None => s
  end.

(** [bool update()], as far as the deferred unref list goes.
    [ROCKY_SOFT_ASSERT_AND_RETURN(viewer.valid(), false, ...)]: with a
    null [viewer] the call returns at once and releases nothing.
    Otherwise [_disposal_queue.front().clear()] drops the references of
    the oldest collection, which then moves to the back, empty.  Returns
    the objects whose references were dropped. *)
Definition update (s : t) : t * list Object :=
  if viewer s then
    match _disposal_queue s with
    | [] => (s, [])
    | front :: rest =>
        ({| viewer := viewer s;
            disposer := disposer s;
            _disposal_queue := rest ++ [[]];
            user := user s |}, front)
    end
  else (s, []).

Definition disposes (s : t) (objects : list (option Object)) : t :=
  foldl dispose s objects.

(** One cycle of the host: the objects disposed of before the cycle's
    [update] and those disposed of after it. *)
Record cycle := mkCycle {
  before_update : list (option Object);
  after_update : list (option Object)
  }.

Definition run_cycle (s : t) (c : cycle) : t * list Object :=
  let '(s1, released) := update (disposes s (before_update c)) in
  (disposes s1 (after_update c), released).

(** Cycles 0, 1, 2, ...: what the [update] of each cycle released. *)
Fixpoint run_cycles (s : t) (cs : list cycle) : t * list (list Object) :=
  match cs with
  | [] => (s, [])
  | c :: cs' =>
      let '(s1, released) := run_cycle s c in
      let '(s2, log) := run_cycles s1 cs' in
      (s2, released :: log)
  end.

Definition disposed_in (c : cycle) (o : Object) : Prop :=
  Some o ∈ before_update c ∨ Some o ∈ after_update c.

(** [x] is in the collection at index [j] of the deque (the front has
    index 0). *)
Definition held_at (q : list (list Object)) (j : nat) (x : Object) : Prop :=
  ∃ slot, q !! j = Some slot ∧ x ∈ slot.

(** [x] is in none of the first [i] collections of the deque. *)
Definition absent_below (q : list (list Object)) (i : nat) (x : Object) : Prop :=
  x ∉ concat (take i q).

End context.
Global Arguments t : clear implicits.
Global Arguments cycle : clear implicits.
End VSGContextImpl.

(** ** BingImageLayer::createImageImplementation (BingImageLayer.cpp) *)

Module BingImageLayer.

(** [Status] as the function uses it: a code and a message, [failed()]
    when the code is not [NoError]. *)
Inductive StatusCode :=
  NoError | ResourceUnavailable | ServiceUnavailable | GeneralError.

Record Status := mkStatus { code : StatusCode; message : string }.

Definition StatusError : Status := mkStatus GeneralError "".

(** [Result<T>]: a value, or the status of a failure (the case in which
    [status.failed()] holds). *)
Inductive Result (T : Type) :=
| Ok (value : T)
| Failed (status : Status).
Global Arguments Ok {T} value.
Global Arguments Failed {T} status.

Section layer.
Context {TileKey URI Content Image : Type}.

(** [TileURICache] is declared in BingImageLayer.h, which is not part of
    the sources at hand: the function only calls [get(key)], whose answer
    may have no value, and [put(key, value)].  The cache is a parameter. *)
Context {Cache : Type}.
Context (cache_get : Cache → TileKey → option (Result URI)).
Context (cache_put : Cache → TileKey → Result URI → Cache).

(** The metadata URI the function assembles from the key and the layer's
    [imagerySet], [apiKey] and [imageryMetadataUrl]. *)
Context (metadataURI : TileKey → URI).

(** [parse_json] and the two JSON pointers: the image URL, when both
    [vintageEnd] and [imageUrl] are there. *)
Context (imageUrl : Content → option URI).

(** [io]: what [URI::read(io)] answers for each URI during the call, and
    [io.services.readImageFromStream] ([None]: a null image pointer). *)
Record IOOptions := mkIO {
  read : URI → Result Content;
  readImageFromStream : Content → Result (option Image)
}.

(** [GeoImage(image, key.extent())] *)
Definition GeoImage : Type := Image * TileKey.

(** What one call did: the cache left, the URIs read (metadata and
    image), in order, and the result. *)
Record created := mkCreated {
  cache_after : Cache;
  reads : list URI;
  result : Result GeoImage
}.

Definition createImageImplementation (_tileURICache : Cache)
    (key : TileKey) (io : IOOptions) : created :=
  let '(cache1, reads1, imageURI) :=
    match cache_get _tileURICache key with
    | Some r => (_tileURICache, [], r)
    | None =>
        let metadata := metadataURI key in
        let r :=
          match read io metadata with
          | Ok data =>
              match imageUrl data with
              | Some uri => Ok uri
              | None =>
                  Failed (mkStatus ResourceUnavailable "No data at this level")
              end
          | Failed st => Failed st
          end in
        (cache_put _tileURICache key r, [metadata], r)
    end in
  match imageURI with
  | Failed st => mkCreated cache1 reads1 (Failed st)
  | Ok uri =>
      let reads2 := reads1 ++ [uri] in
      match read io uri with
      | Failed st => mkCreated cache1 reads2 (Failed st)
      | Ok data =>
          match readImageFromStream io data with
          | Failed st => mkCreated cache1 reads2 (Failed st)
          | Ok (Some image) => mkCreated cache1 reads2 (Ok (image, key))
          | Ok None => mkCreated cache1 reads2 (Failed StatusError)
          end
      end
  end.

(** Successive calls for [key], one [io] per call. *)
Fixpoint lookups (cache : Cache) (key : TileKey) (ios : list IOOptions)
    : Cache * list URI * list (Result GeoImage) :=
  match ios with
  | [] => (cache, [], [])
  | io :: ios' =>
      let c := createImageImplementation cache key io in
      let '(cache2, reads2, results) := lookups (cache_after c) key ios' in
      (cache2, reads c ++ reads2, result c :: results)
  end.

End layer.
Global Arguments IOOptions : clear implicits.
Global Arguments created : clear implicits.
End BingImageLayer.

(** ** deduceContentTypeFromStream (VSGContext.cpp) *)

Module ContentType.
Import Byte.

Global Instance byte_eq_decision : EqDecision byte := byte_eq_dec.

(** A string literal as the array [strncmp] reads: its characters and
    the terminating NUL. *)
Definition literal (chars : list byte) : list byte := chars ++ [x00].

(** [!strncmp(s1, s2, n)]: the first [n] characters are compared one by
    one; the comparison ends, equal, after [n] characters or at a NUL that
    both arrays have at the same place.  Neither array is read past its
    end here ([data] holds 16 characters, [n] is at most 8, and a literal
    ends with a NUL); were one to run out, the model answers [false]. *)
Fixpoint strncmp_equal (s1 s2 : list byte) (n : nat) : bool :=
  match n with
  | 0 => true
  | S n' =>
      match s1, s2 with
      | c1 :: r1, c2 :: r2 =>
          if decide (c1 = c2)
          then (if decide (c1 = x00) then true else strncmp_equal r1 r2 n')
          else false
      | _, _ => false
      end
  end.

(** The characters of a literal that [strncmp] can get to: those up to
    and including its first NUL. *)
Fixpoint upto_nul (l : list byte) : list byte :=
  match l with
  | [] => []
  | c :: l' => if decide (c = x00) then [c] else c :: upto_nul l'
  end.

(** [std::string deduceContentTypeFromStream(std::istream& stream)], the
    stream given by its bytes.  [len] is the [unsigned int] that the
    stream's length is stored in; [data] is the 16 byte header. *)
Definition deduceContentTypeFromStream (stream : list byte) : string :=
  let len := (Z.of_nat (length stream) mod 2 ^ 32)%Z in
  if (len <? 16)%Z then ""
  else
    let data := take 16 stream in
    match data with
    | xff :: _ =>
        if strncmp_equal data (literal [xff; xd8; xff]) 3
        then "image/jpg" else ""
    | x89 :: _ =>
        if strncmp_equal data
             (literal [x89; x50; x4e; x47; x0d; x0a; x1a; x0a]) 8
        then "image/png" else ""
    | x47 :: _ =>
        if strncmp_equal data (literal [x47; x49; x46; x38; x37; x61]) 6
           || strncmp_equal data (literal [x47; x49; x46; x38; x39; x61]) 6
        then "image/gif" else ""
    | x49 :: _ =>
        if strncmp_equal data (literal [x49; x49; x2a; x00]) 4
        then "image/tif" else ""
    | x4d :: _ =>
        if strncmp_equal data (literal [x4d; x4d; x00; x2a]) 4
        then "image/tif" else ""
    | x42 :: rest =>
        match rest with
        | x4d :: _ => "image/bmp"
        | _ => ""
        end
    | x52 :: _ =>
        if strncmp_equal data (literal [x52; x49; x46; x46]) 4
        then "image/webp" else ""
    | _ => ""
    end.

(** The signatures that the function tells apart, as it tests them, with
    the type it returns for each.  The comparison with ["\x4D\x4D\x00\x2A"]
    ends at the NUL, so that three bytes make the signature; of
    [RIFF ???? WEBP] the function tests [RIFF], and of a bitmap [BM]. *)
Definition signatures : list (list byte * string) :=
  [([xff; xd8; xff], "image/jpg");
   ([x89; x50; x4e; x47; x0d; x0a; x1a; x0a], "image/png");
   ([x47; x49; x46; x38; x37; x61], "image/gif");
   ([x47; x49; x46; x38; x39; x61], "image/gif");
   ([x49; x49; x2a; x00], "image/tif");
   ([x4d; x4d; x00], "image/tif");
   ([x42; x4d], "image/bmp");
   ([x52; x49; x46; x46], "image/webp")].

Fixpoint starts_with (sig data : list byte) : bool :=
  match sig, data with
  | [], _ => true
  | c :: sig', d :: data' => if decide (d = c) then starts_with sig' data' else false
  | _ :: _, [] => false
  end.

Fixpoint first_signature (table : list (list byte * string))
    (data : list byte) : string :=
  match table with
  | [] => ""
  | (sig, type) :: table' =>
      if starts_with sig data then type else first_signature table' data
  end.

End ContentType.

(** ** findReaderWriter and io.services.readImageFromStream
       (VSGContext.cpp) *)

Module ImageReaders.
Import Stdlib.Strings.Ascii Byte.

(** A [vsg::ReaderWriter] as [findReaderWriter] sees it: a
    [vsg::CompositeReaderWriter] with its [readerWriters], or another
    reader, with what [getFeatures] answers: [None] when it returns
    [false], otherwise the [extensionFeatureMap], a map from extensions to
    feature masks. *)
#[local] Set Warnings "-register-all".
Inductive ReaderWriter :=
| CompositeReaderWriter (readerWriters : list ReaderWriter)
| Reader (reader_id : nat) (getFeatures : option (gmap string Z)).

Section readers.
(** [vsg::ReaderWriter::FeatureMask::READ_ISTREAM], a constant of the
    scene graph library. *)
Context (READ_ISTREAM : Z).

(** The test of the non-composite branch: [getFeatures] succeeds, the
    extension is in the map, and its mask has [READ_ISTREAM]. *)
Definition reads_istream (extension : string) (rw : ReaderWriter) : bool :=
  match rw with
  | CompositeReaderWriter _ => false
  | Reader _ None => false
  | Reader _ (Some extensionFeatureMap) =>
      match extensionFeatureMap !! extension with
      | Some mask => negb (Z.land mask READ_ISTREAM =? 0)%Z
      | None => false
      end
  end.

(** [findReaderWriter(extension, readerWriters)]: the loop over
    [readerWriters] ([find_in_list]), which calls itself on the readers of
    a composite, assigns [rw] to [output] when [rw] passes the test, and
    breaks as soon as [output] is set. *)
Fixpoint find_in (extension : string) (rw : ReaderWriter)
    : option ReaderWriter :=
  match rw with
  | CompositeReaderWriter rws =>
      (fix find_in_list (l : list ReaderWriter) : option ReaderWriter :=
         match l with
         | [] => None
         | rw' :: l' =>
             match find_in extension rw' with
             | Some output => Some output
             | None => find_in_list l'
             end
         end) rws
  | Reader _ _ => if reads_istream extension rw then Some rw else None
  end.

Definition findReaderWriter (extension : string)
    (readerWriters : list ReaderWriter) : option ReaderWriter :=
  find_in extension (CompositeReaderWriter readerWriters).

(** The readers of a list, composites opened up, left to right. *)
Fixpoint leaves (rw : ReaderWriter) : list ReaderWriter :=
  match rw with
  | CompositeReaderWriter rws =>
      (fix leaves_list (l : list ReaderWriter) : list ReaderWriter :=
         match l with
         | [] => []
         | rw' :: l' => leaves rw' ++ leaves_list l'
         end) rws
  | Reader _ _ => [rw]
  end.

(** [ext_for_mime_type]: the "map of mime-types to extensions that VSG
    can understand". *)
Definition ext_for_mime_type : gmap string string :=
  list_to_map
    [("image/bmp", ".bmp"); ("image/gif", ".gif"); ("image/jpg", ".jpg");
     ("image/jpeg", ".jpg"); ("image/png", ".png"); ("image/tga", ".tga");
     ("image/tif", ".tif"); ("image/tiff", ".tif"); ("image/webp", ".webp")].

(** [contentType[0] != '.' ? ("." + contentType) : contentType] *)
Definition contentTypeAsExtension (contentType : string) : string :=
  match contentType with
  | String "."%char _ => contentType
  | _ => "." +:+ contentType
  end.

(** The double quote character of the error message. *)
Definition quote : string :=
  String (Ascii.Ascii false true false false false true false false) "".

(** [options->readerWriters], and what reading the stream with a reader
    and an [extensionHint] gives once [util::makeImageFromVSG] has turned
    it into a result. *)
Context {Image : Type}.
Context (readerWriters : list ReaderWriter).
Context (read_cast : ReaderWriter → string → list byte
                     → BingImageLayer.Result (option Image)).

(** The three searches of [io.services.readImageFromStream], in order:
    the mime-type mapping, the content type taken as an extension, the
    content type deduced from the data.  Gives the reader found and the
    extension hint it is to be called with. *)
Definition by_mime_type (contentType : string)
    : option (ReaderWriter * string) :=
  match ext_for_mime_type !! contentType with
  | Some ext =>
      match findReaderWriter ext readerWriters with
      | Some rw => Some (rw, ext)
      | None => None
      end
  | None => None
  end.

Definition by_extension (contentType : string)
    : option (ReaderWriter * string) :=
  match contentType with
  | "" => None
  | _ =>
      match findReaderWriter (contentTypeAsExtension contentType)
              readerWriters with
      | Some rw => Some (rw, contentTypeAsExtension contentType)
      | None => None
      end
  end.

Definition by_data (location : list byte) : option (ReaderWriter * string) :=
  match ContentType.deduceContentTypeFromStream location with
  | "" => None
  | deduced => by_mime_type deduced
  end.

Definition select_reader (location : list byte) (contentType : string)
    : option (ReaderWriter * string) :=
  match by_mime_type contentType with
  | Some found => Some found
  | None =>
      match by_extension contentType with
      | Some found => Some found
      | None => by_data location
      end
  end.

(** [io.services.readImageFromStream(location, contentType, io)] *)
Definition readImageFromStream (location : list byte) (contentType : string)
    : BingImageLayer.Result (option Image) :=
  match select_reader location contentType with
  | Some (rw, extensionHint) => read_cast rw extensionHint location
  | None =>
      BingImageLayer.Failed
        (BingImageLayer.mkStatus BingImageLayer.ServiceUnavailable
           ("No image reader for " +:+ quote +:+ contentType +:+ quote))
  end.

End readers.
End ImageReaders.

(** ** GDAL_VSG_ReaderWriter (VSGContext.cpp) *)

Module GDALReader.
Import Byte.
Section gdal.
Context (READ_ISTREAM : Z).

(** [_features.extensionFeatureMap] as the constructor fills it, one
    assignment after the other. *)
Definition _features : gmap string Z :=
  <[ ".png" := READ_ISTREAM ]>
    (<[ ".jpg" := READ_ISTREAM ]>
       (<[ ".tif" := READ_ISTREAM ]>
          (<[ ".webp" := READ_ISTREAM ]> ∅))).

(** The reader as [findReaderWriter] sees it: [getFeatures] hands out
    [_features] and returns [true]. *)
Definition reader (reader_id : nat) : ImageReaders.ReaderWriter :=
  ImageReaders.Reader reader_id (Some _features).

(** The driver name that [read] picks from [options->extensionHint]. *)
Definition gdal_driver (extensionHint : string) : string :=
  if decide (extensionHint = ".webp") then "webp"
  else if decide (extensionHint = ".tif") then "gtiff"
  else if decide (extensionHint = ".jpg") then "jpeg"
  else if decide (extensionHint = ".png") then "png"
  else "".

(** [read(in, options)]: [options] is given by its [extensionHint], [None]
    standing for null options; [GDAL_readImage] is [GDAL::readImage]
    followed, when its status is ok, by [util::moveImageToVSG], and is
    [None] otherwise.  [None] is the null object that [read] returns. *)
Context {Object : Type}.
Context (GDAL_readImage : list byte → string → option Object).

Definition read (data : list byte) (options : option string)
    : option Object :=
  match options with
  | None => None
  | Some extensionHint =>
      match _features !! extensionHint with
      | None => None
      | Some _ => GDAL_readImage data (gdal_driver extensionHint)
      end
  end.
End gdal.
End GDALReader.

(** ** Sequences of calls on a SentryTracker *)

Module TrackerCalls.
Section calls.
Context {T : Type}.

(** A call made on a tracker: [use] or [flush], with its arguments. *)
Inductive call :=
| call_use (data : T) (token : option SentryTracker.Token)
| call_flush (maxCount : nat) (dispose : SentryTracker.Disposer T).

(** The tracker after a sequence of calls; [None] when one of them is a
    [use] with a deleted token. *)
Fixpoint after_calls (s : SentryTracker.t T) (calls : list call)
    : option (SentryTracker.t T) :=
  match calls with
  | [] => Some s
  | call_use data token :: calls' =>
      match SentryTracker.use s data token with
      | Some (s', _) => after_calls s' calls'
      | None => None
      end
  | call_flush maxCount dispose :: calls' =>
      after_calls (SentryTracker.after (SentryTracker.flush maxCount dispose s))
                  calls'
  end.
End calls.
Global Arguments call : clear implicits.
End TrackerCalls.

(** ** What a sequence of frames ran *)

Module QueueLog.
(** The operations that were run, out of the per-frame record. *)
Definition operations_run (rans : list (option PriorityUpdateQueue.Operation))
    : list PriorityUpdateQueue.Operation :=
  omap id rans.
End QueueLog.

(** ** What a sequence of cycles disposed of *)

Module DisposalLog.
Section log.
Context {Object : Type}.
(** The non-null objects passed to [dispose] during the cycles, in call
    order. *)
Definition disposed_objects (cs : list (VSGContextImpl.cycle Object))
    : list Object :=
  cs ≫= (λ c, omap id (VSGContextImpl.before_update c
                        ++ VSGContextImpl.after_update c)).

(** A cycle in which nothing is disposed of. *)
Definition quiet : VSGContextImpl.cycle Object :=
  VSGContextImpl.mkCycle [] [].
End log.
End DisposalLog.

(** ** BingImageLayer: open and close (BingImageLayer.cpp) *)
Module BingLayerState.
Import BingImageLayer.
Section state.
Context {TileKey URI Content Image Cache : Type}.
Context (cache_get : Cache → TileKey → option (Result URI)).
Context (cache_put : Cache → TileKey → Result URI → Cache).
Context (metadataURI : TileKey → URI) (imageUrl : Content → option URI).
(** [std::make_unique<TileURICache>()]: a cache just constructed. *)
Context (new_cache : Cache).

(** [Status::failed()] and [StatusOK]. *)
Definition failed (st : Status) : bool :=
  match code st with
  | NoError => false
  | _ => true
  end.
Definition StatusOK : Status := mkStatus NoError "".

(** The member that open, close and [createImageImplementation] share:
    [std::unique_ptr<TileURICache> _tileURICache], [None] when null. *)
Record layer := mkLayer { _tileURICache : option Cache }.

(** [Status openImplementation(const IOOptions& io)], given the status
    that [super::openImplementation(io)] returns. *)
Definition openImplementation (parent : Status) (l : layer) : layer * Status :=
  if failed parent then (l, parent)
  else ({| _tileURICache := Some new_cache |}, StatusOK).

(** [void closeImplementation()] *)
Definition closeImplementation (l : layer) : layer :=
  {| _tileURICache := None |}.

(** [createImageImplementation] on the layer's cache.  It dereferences
    [_tileURICache] without a test: on a null pointer the call is
    undefined, [None] in the model. *)
Definition createImage (l : layer) (key : TileKey)
    (io : IOOptions URI Content Image)
    : option (layer * list URI * Result (GeoImage (TileKey := TileKey) (Image := Image))) :=
  match _tileURICache l with
  | Some cache =>
      let c := createImageImplementation cache_get cache_put metadataURI
                 imageUrl cache key io in
      Some ({| _tileURICache := Some (cache_after c) |}, reads c, result c)
  | None => None
  end.
End state.
Global Arguments layer : clear implicits.
End BingLayerState.

(** ** util::as<bool> and util::toString<bool> (Utils.h) *)
Module Convert.
Section convert.
(** [toLower] is declared in Utils.h and defined elsewhere. *)
Context (toLower : string → string).

(** [template<> bool as<bool>(const std::string& str,
    const bool& default_value)] *)
Definition as_bool (str : string) (default_value : bool) : bool :=
  let temp := toLower str in
  if bool_decide (temp = "true") || bool_decide (temp = "yes")
     || bool_decide (temp = "on") then true
  else if bool_decide (temp = "false") || bool_decide (temp = "no")
          || bool_decide (temp = "off") then false
  else default_value.

(** [template<> std::string toString<bool>(const bool& value)] *)
Definition toString_bool (value : bool) : string :=
  if value then "true" else "false".
End convert.
End Convert.

(** ** Concrete inputs used in the examples below *)

Module Scenario.
(** Three operations that are not [Cancelable], and the tasks T1 with
    priority 5, T2 with priority 1 and T3 with no [get_priority]; the
    priorities are whole numbers, on which [<] of [float] and of [Z]
    agree. *)
Definition op (i : nat) : PriorityUpdateQueue.Operation :=
  PriorityUpdateQueue.mkOperation i None.
Definition T1 : PriorityUpdateQueue.Task Z :=
  PriorityUpdateQueue.mkTask (Some (op 1)) (Some 5%Z).
Definition T2 : PriorityUpdateQueue.Task Z :=
  PriorityUpdateQueue.mkTask (Some (op 2)) (Some 1%Z).
Definition T3 : PriorityUpdateQueue.Task Z :=
  PriorityUpdateQueue.mkTask (Some (op 3)) None.

(** A context with a viewer, three disposal collections and no custom
    disposer, and four cycles, object X being disposed of in cycle 0 before its
    [update]. *)
Definition ring3 : VSGContextImpl.t string unit :=
  VSGContextImpl.mk true None [[]; []; []] tt.
Definition cycles_X : list (VSGContextImpl.cycle string) :=
  [VSGContextImpl.mkCycle [Some "X"] []; VSGContextImpl.mkCycle [] [];
   VSGContextImpl.mkCycle [] []; VSGContextImpl.mkCycle [] []].

(** A context as constructed, with a custom disposer that records what it
    is handed. *)
Definition with_disposer : VSGContextImpl.t string (list string) :=
  VSGContextImpl.mk true (Some (λ o handed, handed ++ [o])) (replicate 8 []) [].

(** A tile-URI cache that is a finite map from keys to results, [get] its
    lookup and [put] its insertion; a network that is down and one that
    is up. *)
Definition map_get (c : gmap nat (BingImageLayer.Result string)) (k : nat)
    : option (BingImageLayer.Result string) := c !! k.
Definition map_put (c : gmap nat (BingImageLayer.Result string)) (k : nat)
    (v : BingImageLayer.Result string)
    : gmap nat (BingImageLayer.Result string) := <[k := v]> c.
Definition unreachable : BingImageLayer.Status :=
  BingImageLayer.mkStatus BingImageLayer.ServiceUnavailable "unreachable".
Definition io_down : BingImageLayer.IOOptions string string string :=
  BingImageLayer.mkIO (λ _, BingImageLayer.Failed unreachable)
                      (λ data, BingImageLayer.Ok (Some data)).
Definition io_up : BingImageLayer.IOOptions string string string :=
  BingImageLayer.mkIO (λ uri, BingImageLayer.Ok uri)
                      (λ data, BingImageLayer.Ok (Some data)).
End Scenario.

(** ** Further concrete inputs *)

Module Inputs.
Import Byte.

(** The eight bytes of the PNG signature, and a 16 byte header that
    starts with them. *)
Definition png_signature : list byte :=
  [x89; x50; x4e; x47; x0d; x0a; x1a; x0a].
Definition png_header : list byte :=
  png_signature ++ [x00; x00; x00; x0d; x49; x48; x44; x52].

(** [READ_ISTREAM] as the scene graph library has it, and readers: a
    composite holding a reader without features and one for [.tif], then a
    reader that reads [.png] from a stream and [.jpg] from a file only. *)
Definition READ_ISTREAM : Z := 2.
Definition readers : list ImageReaders.ReaderWriter :=
  [ImageReaders.CompositeReaderWriter
     [ImageReaders.Reader 1 None;
      ImageReaders.Reader 2 (Some {[ ".tif" := 2%Z ]})];
   ImageReaders.Reader 3 (Some (<[ ".png" := 6%Z ]> {[ ".jpg" := 1%Z ]}))].

(** A reading that answers with the number of the reader used. *)
Definition read_with (rw : ImageReaders.ReaderWriter) (ext : string)
    (location : list byte) : BingImageLayer.Result (option nat) :=
  match rw with
  | ImageReaders.Reader n _ => BingImageLayer.Ok (Some n)
  | ImageReaders.CompositeReaderWriter _ =>
      BingImageLayer.Failed BingImageLayer.StatusError
  end.

(** Calls on a tracker: two keys are touched, a sweep, the first key is
    touched again, a sweep, a third key is touched. *)
Definition tracker_calls : list (TrackerCalls.call string) :=
  [TrackerCalls.call_use "A" None; TrackerCalls.call_use "B" None;
   TrackerCalls.call_flush 10 SentryTracker.accept_all;
   TrackerCalls.call_use "A" (Some 1);
   TrackerCalls.call_flush 10 SentryTracker.accept_all;
   TrackerCalls.call_use "C" None].

(** A task of priority 9 whose operation is canceled. *)
Definition T4 : PriorityUpdateQueue.Task Z :=
  PriorityUpdateQueue.mkTask
    (Some (PriorityUpdateQueue.mkOperation 4 (Some true))) (Some 9%Z).

(** Priorities one of which may be not a number ([None]): as with [<] on
    [float], every comparison with it answers [false].  Four tasks, the
    third with such a priority. *)
Definition lt_or_nan (a b : option Z) : bool :=
  match a, b with
  | Some x, Some y => (x <? y)%Z
  | _, _ => false
  end.
Definition tasks_with_nan : list (PriorityUpdateQueue.Task (option Z)) :=
  [PriorityUpdateQueue.mkTask (Some (Scenario.op 1)) (Some (Some 1%Z));
   PriorityUpdateQueue.mkTask (Some (Scenario.op 2)) (Some (Some 5%Z));
   PriorityUpdateQueue.mkTask (Some (Scenario.op 3)) (Some None);
   PriorityUpdateQueue.mkTask (Some (Scenario.op 4)) (Some (Some 3%Z))].

(** A context with a viewer whose deque holds A, then B, then nothing,
    and the same context with a null viewer. *)
Definition ring_AB : VSGContextImpl.t string unit :=
  VSGContextImpl.mk true None [["A"]; ["B"]; []] tt.
Definition ring_AB_no_viewer : VSGContextImpl.t string unit :=
  VSGContextImpl.mk false None [["A"]; ["B"]; []] tt.

(** Lower case of the letters A to Z, for [toLower]. *)
Definition lower_char (c : Ascii.ascii) : Ascii.ascii :=
  let n := Ascii.nat_of_ascii c in
  if (65 <=? n) && (n <=? 90) then Ascii.ascii_of_nat (n + 32) else c.
Fixpoint lower (str : string) : string :=
  match str with
  | EmptyString => EmptyString
  | String c str' => String (lower_char c) (lower str')
  end.
End Inputs.

(* ===================================================================== *)
(** * Part II: properties                                                 *)
(* ===================================================================== *)

(** ** SentryTracker *)

Section tracker_facts.
Import SentryTracker.
Context {T : Type}.
Implicit Types (s : t T) (l stale : list (ListEntry T)) (le e : ListEntry T).
Implicit Types (ptr : Token) (d : Disposer T).

Lemma unlink_Some ptr l e r :
  unlink ptr l = Some (e, r) →
  ∃ l1 l2, l = l1 ++ e :: l2 ∧ r = l1 ++ l2 ∧ _token e = ptr.
Proof.
  revert e r. induction l as [|x l IH]; intros e r; simpl; [done|].
  destruct (decide (_token x = ptr)) as [Heq|Hne].
  - intros [= <- <-]. by exists [], l.
  - destruct (unlink ptr l) as [[y r']|] eqn:Hu; [|done].
    intros [= <- <-]. destruct (IH _ _ eq_refl) as (l1 & l2 & -> & -> & Ht).
    by exists (x :: l1), l2.
Qed.

Lemma unlink_None ptr l : unlink ptr l = None → ptr ∉ tokens l.
Proof.
  induction l as [|x l IH]; simpl; [intros _; apply not_elem_of_nil|].
  destruct (decide (_token x = ptr)) as [Heq|Hne]; [done|].
  destruct (unlink ptr l) as [[y r']|]; [done|].
  intros _. rewrite not_elem_of_cons. split; [done|by apply IH].
Qed.

Lemma unlink_is_Some ptr l : ptr ∈ tokens l → is_Some (unlink ptr l).
Proof.
  intros Hin. destruct (unlink ptr l) eqn:Hu; [by eexists|].
  by apply unlink_None in Hu.
Qed.

Lemma unlink_Permutation ptr l e r :
  unlink ptr l = Some (e, r) → e :: r ≡ₚ l.
Proof.
  intros (l1 & l2 & -> & -> & _)%unlink_Some.
  by rewrite Permutation_middle.
Qed.

(** [use] permutes the entries or adds one with a new token. *)
Lemma new_Token_fresh s : new_Token s ∉ live_tokens s.
Proof.
  unfold new_Token. apply max_list_not_elem_of_gt. lia.
Qed.

Lemma use_wf s data token s' ptr :
  wf s → use s data token = Some (s', ptr) → wf s'.
Proof.
  unfold wf, live_tokens, entries, tokens, use. intros Hwf.
  destruct token as [p|].
  - destruct (unlink p (ahead s)) as [[e rest]|] eqn:Ha.
    + intros [= <- <-]. cbn [ahead behind].
      apply unlink_Some in Ha as (l1 & l2 & Hl & -> & _).
      rewrite Hl in Hwf. revert Hwf.
      repeat (rewrite fmap_app || rewrite fmap_cons).
      by rewrite <- Permutation_middle.
    + destruct (unlink p (behind s)) as [[e rest]|] eqn:Hb; [|done].
      intros [= <- <-]. cbn [ahead behind].
      apply unlink_Some in Hb as (l1 & l2 & Hl & -> & _).
      rewrite Hl in Hwf. revert Hwf.
      repeat (rewrite fmap_app || rewrite fmap_cons).
      rewrite <- !Permutation_middle. simpl. done.
  - intros [= <- <-]. cbn [ahead behind]. simpl. apply NoDup_cons.
    split; [|done]. apply new_Token_fresh.
Qed.

Lemma use_token_ahead s data token s' ptr :
  use s data token = Some (s', ptr) → ptr ∈ tokens (ahead s').
Proof.
  unfold use, tokens. destruct token as [p|].
  - destruct (unlink p (ahead s)) as [[e rest]|] eqn:Ha.
    + intros [= <- <-]. simpl.
      apply unlink_Some in Ha as (? & ? & _ & _ & <-). apply list_elem_of_here.
    + destruct (unlink p (behind s)) as [[e rest]|] eqn:Hb; [|done].
      intros [= <- <-]. simpl.
      apply unlink_Some in Hb as (? & ? & _ & _ & <-). apply list_elem_of_here.
  - intros [= <- <-]. simpl. apply list_elem_of_here.
Qed.

Lemma use_ahead_mono s data token s' ptr q :
  use s data token = Some (s', ptr) →
  q ∈ tokens (ahead s) → q ∈ tokens (ahead s').
Proof.
  unfold use, tokens. destruct token as [p|].
  - destruct (unlink p (ahead s)) as [[e rest]|] eqn:Ha.
    + intros [= <- <-]. simpl. apply unlink_Permutation in Ha.
      intros Hq. by rewrite <- Ha in Hq.
    + destruct (unlink p (behind s)) as [[e rest]|] eqn:Hb; [|done].
      intros [= <- <-]. simpl. apply list_elem_of_further.
  - intros [= <- <-]. simpl. apply list_elem_of_further.
Qed.

Lemma uses_wf s calls s' ptrs :
  wf s → uses s calls = Some (s', ptrs) → wf s'.
Proof.
  revert s s' ptrs. induction calls as [|[data token] calls IH];
    intros s s' ptrs Hwf; simpl.
  - by intros [= <- <-].
  - destruct (use s data token) as [[s1 p]|] eqn:Hu; simpl; [|done].
    destruct (uses s1 calls) as [[s2 ps]|] eqn:Hus; simpl; [|done].
    intros [= <- <-]. eapply IH; [|done]. by eapply use_wf.
Qed.

Lemma uses_ahead_mono s calls s' ptrs q :
  uses s calls = Some (s', ptrs) →
  q ∈ tokens (ahead s) → q ∈ tokens (ahead s').
Proof.
  revert s s' ptrs. induction calls as [|[data token] calls IH];
    intros s s' ptrs; simpl.
  - by intros [= <- <-].
  - destruct (use s data token) as [[s1 p]|] eqn:Hu; simpl; [|done].
    destruct (uses s1 calls) as [[s2 ps]|] eqn:Hus; simpl; [|done].
    intros [= <- <-] Hq. eapply IH; [done|]. by eapply use_ahead_mono.
Qed.

(** Every token a [use] call handed back is ahead of the marker once the
    calls are over. *)
Lemma uses_tokens_ahead s calls s' ptrs ptr :
  uses s calls = Some (s', ptrs) → ptr ∈ ptrs → ptr ∈ tokens (ahead s').
Proof.
  revert s s' ptrs. induction calls as [|[data token] calls IH];
    intros s s' ptrs; simpl.
  - intros [= <- <-]. by intros ?%elem_of_nil.
  - destruct (use s data token) as [[s1 p]|] eqn:Hu; simpl; [|done].
    destruct (uses s1 calls) as [[s2 ps]|] eqn:Hus; simpl; [|done].
    intros [= <- <-] [->|Hin]%elem_of_cons.
    + eapply uses_ahead_mono; [done|]. by eapply use_token_ahead.
    + by eapply IH.
Qed.

Lemma wf_ahead_not_behind s ptr :
  wf s → ptr ∈ tokens (ahead s) → ptr ∉ tokens (behind s).
Proof.
  unfold wf, live_tokens, entries, tokens. rewrite fmap_app.
  intros [_ [Hdisj _]]%NoDup_app Ha. by apply Hdisj.
Qed.

(** What the loop of [flush] computes. *)
Lemma flush_loop_spec d maxCount count stale kept vis del :
  flush_loop d maxCount count stale = (kept, vis, del) →
  ∃ unvisited,
    stale = vis ++ unvisited ∧
    del = filter (λ le, disposed_by d le = true) vis ∧
    kept = filter (λ le, disposed_by d le ≠ true) vis ++ unvisited ∧
    count + length del ≤ max count maxCount.
Proof.
  revert count kept vis del.
  induction stale as [|le rest IH]; intros count kept vis del; simpl.
  - intros [= <- <- <-]. exists []. simpl. split_and!; [done..|lia].
  - destruct (decide (count < maxCount)) as [Hlt|Hge].
    + destruct (disposed_by d le) eqn:Hd.
      * destruct (flush_loop d maxCount (S count) rest) as [[k v] dl] eqn:Hrec.
        intros [= <- <- <-].
        destruct (IH _ _ _ _ Hrec) as (u & -> & -> & -> & Hlen).
        exists u. rewrite !filter_cons, Hd. simpl.
        split_and!; [done..|simpl in *; lia].
      * destruct (flush_loop d maxCount count rest) as [[k v] dl] eqn:Hrec.
        intros [= <- <- <-].
        destruct (IH _ _ _ _ Hrec) as (u & -> & -> & -> & Hlen).
        exists u. rewrite !filter_cons, Hd. simpl.
        split_and!; [done..|simpl in *; lia].
    + intros [= <- <- <-]. exists (le :: rest). simpl.
      split_and!; [done..|lia].
Qed.

(** Once [count] has reached [maxCount] the loop visits nothing. *)
Lemma flush_loop_full d maxCount count stale :
  maxCount ≤ count → flush_loop d maxCount count stale = (stale, [], []).
Proof.
  intros Hge. destruct stale as [|le rest]; simpl; [done|].
  by rewrite decide_False by lia.
Qed.

(** Where the loop stops: at the end of the list, or as soon as [count]
    reaches [maxCount], which it does on erasing an entry; the entries it
    refuses do not count. *)
Lemma flush_loop_stops d maxCount count stale kept vis del :
  count ≤ maxCount →
  flush_loop d maxCount count stale = (kept, vis, del) →
  vis = stale ∨
  (count + length del = maxCount ∧
   (count < maxCount →
    ∃ vis' le, vis = vis' ++ [le] ∧ disposed_by d le = true)).
Proof.
  revert count kept vis del.
  induction stale as [|le rest IH]; intros count kept vis del Hle; simpl.
  - intros [= <- <- <-]. by left.
  - destruct (decide (count < maxCount)) as [Hlt|Hge].
    + destruct (disposed_by d le) eqn:Hd.
      * destruct (flush_loop d maxCount (S count) rest) as [[k v] dl] eqn:Hrec.
        intros [= <- <- <-].
        destruct (decide (S count < maxCount)) as [Hlt'|Hge'].
        -- assert (Hle' : S count ≤ maxCount) by lia.
           destruct (IH _ _ _ _ Hle' Hrec) as [->|[Hlen Hlast]]; [by left|].
           right. split; [simpl; lia|]. intros _.
           destruct (Hlast Hlt') as (v' & l' & -> & Hl').
           by exists (le :: v'), l'.
        -- rewrite flush_loop_full in Hrec by lia.
           injection Hrec as <- <- <-. right. split; [simpl; lia|].
           intros _. by exists [], le.
      * destruct (flush_loop d maxCount count rest) as [[k v] dl] eqn:Hrec.
        intros [= <- <- <-].
        destruct (IH _ _ _ _ Hle Hrec)
          as [->|[Hlen Hlast]]; [by left|].
        right. split; [done|]. intros _.
        destruct (Hlast Hlt) as (v' & l' & -> & Hl').
        by exists (le :: v'), l'.
    + intros [= <- <- <-]. right. split; [simpl; lia|]. intros ?. lia.
Qed.

(** With every entry accepted and room for all of them, the loop erases
    the whole stale region. *)
Lemma flush_loop_accept_all d maxCount count stale :
  (∀ le, disposed_by d le = true) →
  count + length stale ≤ maxCount →
  flush_loop d maxCount count stale = ([], stale, stale).
Proof.
  intros Hall. revert count.
  induction stale as [|le rest IH]; intros count Hlen; simpl in *; [done|].
  rewrite decide_True by lia. rewrite Hall, IH by lia. done.
Qed.

(** Entries that are all refused are all visited, whatever their number,
    as soon as [maxCount] is not zero. *)
Lemma flush_loop_reject_all d maxCount count stale :
  Forall (λ le, disposed_by d le = false) stale →
  count < maxCount →
  flush_loop d maxCount count stale = (stale, stale, []).
Proof.
  intros Hall Hlt. induction Hall as [|le rest Hle _ IH]; simpl; [done|].
  rewrite decide_True by lia. by rewrite Hle, IH.
Qed.

Lemma flush_spec maxCount d s :
  ∃ unvisited,
    behind s = visited (flush maxCount d s) ++ unvisited ∧
    erased (flush maxCount d s)
      = filter (λ le, disposed_by d le = true) (visited (flush maxCount d s)) ∧
    after (flush maxCount d s)
      = {| ahead := [];
           behind := ahead s
             ++ filter (λ le, disposed_by d le ≠ true) (visited (flush maxCount d s))
             ++ unvisited |} ∧
    length (erased (flush maxCount d s)) ≤ maxCount.
Proof.
  unfold flush.
  destruct (flush_loop d maxCount 0 (behind s)) as [[k v] dl] eqn:Hloop.
  destruct (flush_loop_spec _ _ _ _ _ _ _ Hloop) as (u & Hb & -> & -> & Hlen).
  exists u. simpl. split_and!; [done..|lia].
Qed.

Lemma flush_accept_all maxCount d s :
  (∀ le, disposed_by d le = true) →
  length (behind s) ≤ maxCount →
  flush maxCount d s
  = {| after := {| ahead := []; behind := ahead s |};
       visited := behind s;
       erased := behind s |}.
Proof.
  intros Hall Hlen. unfold flush.
  rewrite flush_loop_accept_all by (done || (simpl; lia)).
  by rewrite app_nil_r.
Qed.

Lemma NoDup_fmap_eq {A B} (g : A → B) (xs : list A) x y :
  NoDup (g <$> xs) → x ∈ xs → y ∈ xs → g x = g y → x = y.
Proof.
  induction xs as [|z xs IH]; simpl.
  - by intros _ ?%elem_of_nil.
  - rewrite NoDup_cons. intros [Hz Hnd] Hx Hy Heq.
    apply elem_of_cons in Hx as [->|Hx]; apply elem_of_cons in Hy as [->|Hy].
    + done.
    + destruct Hz. rewrite Heq. by apply list_elem_of_fmap_2.
    + destruct Hz. rewrite <- Heq. by apply list_elem_of_fmap_2.
    + by apply IH.
Qed.

(** [wf] is an invariant: it holds after [reset] and [use] and [flush]
    keep it. *)
Lemma reset_wf : wf (@reset T).
Proof. apply NoDup_nil_2. Qed.

Lemma flush_wf maxCount d s : wf s → wf (after (flush maxCount d s)).
Proof.
  unfold wf, live_tokens, entries, tokens.
  destruct (flush_spec maxCount d s) as (u & Hb & _ & -> & _).
  cbn [ahead behind]. rewrite app_nil_l, Hb. intros Hnd.
  eapply sublist_NoDup; [exact Hnd|]. apply fmap_sublist.
  apply sublist_app; [done|]. apply sublist_app; [|done].
  apply sublist_filter.
Qed.

(** [flush] leaves the marker at the front of the list, and [use] puts
    an entry ahead of it. *)
Lemma flush_sentry_at_front maxCount d s :
  _sentryptr (after (flush maxCount d s)) = 0.
Proof. by destruct (flush_spec maxCount d s) as (u & _ & _ & -> & _). Qed.

Lemma use_sentry_not_at_front s data token s' ptr :
  use s data token = Some (s', ptr) → 0 < _sentryptr s'.
Proof.
  unfold use, _sentryptr. destruct token as [p|].
  - destruct (unlink p (ahead s)) as [[e rest]|].
    + intros [= <- <-]. simpl. lia.
    + destruct (unlink p (behind s)) as [[e rest]|]; [|done].
      intros [= <- <-]. simpl. lia.
  - intros [= <- <-]. simpl. lia.
Qed.

(** C3 (amended).  Two sweeps in a row with a disposal function that
    accepts everything, room for every entry and no [use] in between:
    the first erases exactly the entries behind the marker and moves the
    marker to the front, which puts every entry that was ahead of it
    behind it; the second erases exactly those entries, the ones that were
    ahead of the marker before the first sweep, and leaves the tracker
    with the marker alone.  The second sweep erases nothing exactly when
    no entry was ahead of the marker; a third sweep erases nothing. *)
Theorem flush_twice_erases_stale_then_touched s d n1 n2 :
  (∀ le, disposed_by d le = true) →
  length (behind s) ≤ n1 →
  length (ahead s) ≤ n2 →
  erased (flush n1 d s) = behind s ∧
  after (flush n1 d s) = {| ahead := []; behind := ahead s |} ∧
  erased (flush n2 d (after (flush n1 d s))) = ahead s ∧
  after (flush n2 d (after (flush n1 d s))) = reset ∧
  (erased (flush n2 d (after (flush n1 d s))) = [] ↔ ahead s = []) ∧
  ∀ n3, erased (flush n3 d (after (flush n2 d (after (flush n1 d s))))) = [].
Proof.
  intros Hall H1 H2.
  rewrite (flush_accept_all n1 d s) by done. cbn [after erased].
  rewrite (flush_accept_all n2 d) by done. cbn [after erased ahead behind].
  split_and!; done.
Qed.

(** C5.  Keys A, B and C are touched; a sweep moves the marker; the next
    cycle touches A and C again, through their tokens; the sweep that
    follows, with [maxCount = 10] and a disposal function that accepts
    everything, visits and erases the entry of B and nothing else, and the
    tracker is left with the entries of C and A. *)
Theorem flush_erases_the_untouched_key (A B C : T) :
  ('(s1, tA) ← use reset A None;
   '(s2, tB) ← use s1 B None;
   '(s3, tC) ← use s2 C None;
   '(s5, _) ← use (after (flush 10 accept_all s3)) A (Some tA);
   '(s6, _) ← use s5 C (Some tC);
   Some (flush 10 accept_all s6))
  = Some {| after := {| ahead := [];
                        behind := [mkListEntry C 3; mkListEntry A 1] |};
            visited := [mkListEntry B 2];
            erased := [mkListEntry B 2] |}.
Proof. reflexivity. Qed.

Lemma use_ahead_origin s data token s' ptr q :
  use s data token = Some (s', ptr) →
  q ∈ tokens (ahead s') → q = ptr ∨ q ∈ tokens (ahead s).
Proof.
  unfold use, tokens. destruct token as [p|].
  - destruct (unlink p (ahead s)) as [[e rest]|] eqn:Ha.
    + intros [= <- <-]. cbn [ahead].
      apply unlink_Some in Ha as (l1 & l2 & -> & -> & <-).
      rewrite fmap_cons, !fmap_app, fmap_cons.
      rewrite elem_of_cons, !elem_of_app, elem_of_cons. tauto.
    + destruct (unlink p (behind s)) as [[e rest]|] eqn:Hb; [|done].
      intros [= <- <-]. cbn [ahead].
      apply unlink_Some in Hb as (l1 & l2 & _ & _ & <-).
      rewrite fmap_cons, elem_of_cons. tauto.
  - intros [= <- <-]. cbn [ahead]. rewrite fmap_cons, elem_of_cons. tauto.
Qed.

Lemma uses_ahead_origin s calls s' ptrs q :
  uses s calls = Some (s', ptrs) →
  q ∈ tokens (ahead s') → q ∈ ptrs ∨ q ∈ tokens (ahead s).
Proof.
  revert s s' ptrs. induction calls as [|[data token] calls IH];
    intros s s' ptrs; simpl.
  - intros [= <- <-]. by right.
  - destruct (use s data token) as [[s1 p]|] eqn:Hu; simpl; [|done].
    destruct (uses s1 calls) as [[s2 ps]|] eqn:Hus; simpl; [|done].
    intros [= <- <-] Hq. destruct (IH _ _ _ Hus Hq) as [?|Hq1].
    + left. by apply list_elem_of_further.
    + destruct (use_ahead_origin _ _ _ _ _ _ Hu Hq1) as [->|?];
        [left; apply list_elem_of_here|by right].
Qed.

(** X2.  The sweep that ends a cycle, with a disposal function that accepts
    everything and room for every entry, erases exactly the entries whose
    token no [use] call of the cycle handed back, and leaves exactly the
    others. *)
Theorem flush_erases_exactly_the_untouched s calls s' ptrs maxCount d :
  wf s →
  ahead s = [] →
  uses s calls = Some (s', ptrs) →
  (∀ le, disposed_by d le = true) →
  length (behind s') ≤ maxCount →
  (∀ e, e ∈ erased (flush maxCount d s') ↔ e ∈ entries s' ∧ _token e ∉ ptrs) ∧
  (∀ e, e ∈ entries (after (flush maxCount d s'))
        ↔ e ∈ entries s' ∧ _token e ∈ ptrs).
Proof.
  intros Hwf Hnil Huses Hall Hlen.
  rewrite flush_accept_all by done. cbn [erased after]. unfold entries.
  cbn [ahead behind]. rewrite app_nil_l.
  assert (Hwf' : wf s') by by eapply uses_wf.
  assert (Hin : ∀ q, q ∈ ptrs ↔ q ∈ tokens (ahead s')).
  { intros q. split; [by eapply uses_tokens_ahead|].
    intros [?|Hq]%(uses_ahead_origin _ _ _ _ _ Huses); [done|].
    rewrite Hnil in Hq. by apply elem_of_nil in Hq. }
  assert (Hdisj : ∀ e, e ∈ behind s' → _token e ∉ tokens (ahead s')).
  { intros e He Ha. apply (wf_ahead_not_behind _ _ Hwf' Ha).
    by apply list_elem_of_fmap_2. }
  split; intros e; rewrite elem_of_app, Hin.
  - split.
    + intros He. split; [by right|by apply Hdisj].
    + intros [[He|He] Hn]; [|done].
      destruct Hn. by apply list_elem_of_fmap_2.
  - split.
    + intros He. split; [by left|by apply list_elem_of_fmap_2].
    + intros [[He|He] Ht]; [done|]. by apply Hdisj in He.
Qed.

(** C6.  Whatever [use] calls are made after a sweep, an entry whose token
    one of them handed back is ahead of the marker: the next [flush] does
    not visit it, does not erase it, and its token is still valid
    afterwards.  The entries a [flush] visits are a prefix of those behind
    the marker. *)
Theorem touched_entries_survive_flush s calls s' ptrs ptr maxCount d :
  wf s →
  uses s calls = Some (s', ptrs) →
  ptr ∈ ptrs →
  (ptr ∉ tokens (visited (flush maxCount d s'))) ∧
  (ptr ∉ tokens (erased (flush maxCount d s'))) ∧
  valid_token (after (flush maxCount d s')) ptr ∧
  visited (flush maxCount d s') `prefix_of` behind s'.
Proof.
  intros Hwf Huses Hin.
  assert (Hahead : ptr ∈ tokens (ahead s')) by by eapply uses_tokens_ahead.
  assert (Hwf' : wf s') by by eapply uses_wf.
  pose proof (wf_ahead_not_behind _ _ Hwf' Hahead) as Hnb.
  destruct (flush_spec maxCount d s') as (u & Hb & He & Ha & _).
  rewrite Hb in Hnb. unfold tokens in *. rewrite fmap_app in Hnb.
  apply not_elem_of_app in Hnb as [Hnv _].
  split_and!.
  - done.
  - rewrite He. intros (le & -> & [_ Hle]%list_elem_of_filter)%list_elem_of_fmap.
    apply Hnv. by apply list_elem_of_fmap_2.
  - unfold valid_token, live_tokens, entries, tokens. rewrite Ha.
    cbn [ahead behind]. rewrite app_nil_l, fmap_app.
    apply elem_of_app. by left.
  - by exists u.
Qed.

(** C10.  In a [flush] with a disposal function [f], a visited entry that
    [f] refuses stays in the list, its token is still valid and is not
    among the deleted ones; the entries erased are the visited entries
    that [f] accepts, and there are at most [maxCount] of them.  Refused
    entries do not count: the loop goes on until every entry behind the
    marker is visited or [maxCount] entries are erased, and in the second
    case it stops on the entry whose erasure makes [maxCount].  So when
    [f] refuses every entry behind the marker, all of them are visited,
    however many, as soon as [maxCount] is not zero. *)
Theorem refused_entries_stay_and_do_not_count s maxCount (f : T → bool) :
  wf s →
  (∀ le, le ∈ visited (flush maxCount (Some f) s) →
         f (_data le) = false →
         le ∈ behind (after (flush maxCount (Some f) s)) ∧
         valid_token (after (flush maxCount (Some f) s)) (_token le) ∧
         _token le ∉ tokens (erased (flush maxCount (Some f) s))) ∧
  erased (flush maxCount (Some f) s)
    = filter (λ le, f (_data le) = true) (visited (flush maxCount (Some f) s)) ∧
  length (erased (flush maxCount (Some f) s)) ≤ maxCount ∧
  (visited (flush maxCount (Some f) s) = behind s ∨
   length (erased (flush maxCount (Some f) s)) = maxCount ∧
   (0 < maxCount →
    ∃ vis le, visited (flush maxCount (Some f) s) = vis ++ [le] ∧
              f (_data le) = true)) ∧
  (Forall (λ le, f (_data le) = false) (behind s) → 0 < maxCount →
   visited (flush maxCount (Some f) s) = behind s ∧
   erased (flush maxCount (Some f) s) = []).
Proof.
  intros Hwf.
  destruct (flush_spec maxCount (Some f) s) as (u & Hb & He & Ha & Hlen).
  split_and!; [|done|done| |].
  2:{ unfold flush.
      destruct (flush_loop (Some f) maxCount 0 (behind s))
        as [[k v] dl] eqn:Hloop. cbn [visited erased].
      assert (Hle0 : 0 ≤ maxCount) by lia.
      destruct (flush_loop_stops _ _ _ _ _ _ _ Hle0 Hloop)
        as [->|[Hcount Hlast]]; [by left|right].
      split; [done|]. intros Hpos.
      destruct (Hlast Hpos) as (v' & le & -> & Hle). by exists v', le. }
  - intros le Hvis Hf.
    assert (Hkept : le ∈ behind (after (flush maxCount (Some f) s))).
    { rewrite Ha. cbn [behind]. rewrite !elem_of_app. right; left.
      apply list_elem_of_filter. split; [|done]. simpl. by rewrite Hf. }
    split_and!; [done| |].
    + unfold valid_token, live_tokens, entries, tokens.
      rewrite fmap_app, elem_of_app. right. by apply list_elem_of_fmap_2.
    + rewrite He.
      intros (e & Htok & [He' Hev]%list_elem_of_filter)%list_elem_of_fmap.
      assert (le = e) as ->; [|simpl in He'; congruence].
      unfold wf, live_tokens, entries, tokens in Hwf.
      rewrite fmap_app in Hwf. apply NoDup_app in Hwf as (_ & _ & Hnd).
      eapply NoDup_fmap_eq; [exact Hnd| | |done];
        rewrite Hb, elem_of_app; by left.
  - intros Hall Hpos. unfold flush.
    rewrite flush_loop_reject_all by done. done.
Qed.
End tracker_facts.

Section tracker_examples.
Import SentryTracker.

(** C3, as stated, fails: key A is touched, a first sweep finds nothing
    behind the marker and moves the marker to the front; the second sweep,
    with nothing touched in between, erases the entry of A. *)
Lemma second_flush_erases_the_touched_entry :
  (s ← fst <$> use reset "A" None;
   Some (erased (flush 10 accept_all s),
         erased (flush 10 accept_all (after (flush 10 accept_all s)))))
  = Some ([], [mkListEntry "A" 1]).
Proof. reflexivity. Qed.

(** C3 (amended) on a tracker with C and A ahead of the marker and B behind
    it: the first sweep erases B, the second erases C and A. *)
Lemma flush_twice_witness :
  let s := {| ahead := [mkListEntry "C" 3; mkListEntry "A" 1];
              behind := [mkListEntry "B" 2] |} in
  erased (flush 10 accept_all s) = [mkListEntry "B" 2] ∧
  erased (flush 10 accept_all (after (flush 10 accept_all s)))
    = [mkListEntry "C" 3; mkListEntry "A" 1] ∧
  after (flush 10 accept_all (after (flush 10 accept_all s))) = reset.
Proof.
  intros s.
  destruct (flush_twice_erases_stale_then_touched s accept_all 10 10)
    as (H1 & _ & H2 & H3 & _).
  - reflexivity.
  - simpl. lia.
  - simpl. lia.
  - exact (conj H1 (conj H2 H3)).
Defined.

(** C6 after a sweep that left A, B and C behind the marker: A and C are
    touched through their tokens, and the next sweep visits B only. *)
Lemma touched_entries_survive_flush_witness :
  let s := {| ahead := [];
              behind := [mkListEntry "C" 3; mkListEntry "B" 2;
                         mkListEntry "A" 1] |} in
  let s' := {| ahead := [mkListEntry "C" 3; mkListEntry "A" 1];
               behind := [mkListEntry "B" 2] |} in
  uses s [("A", Some 1); ("C", Some 3)] = Some (s', [1; 3]) ∧
  visited (flush 10 accept_all s') = [mkListEntry "B" 2] ∧
  (1 ∉ tokens (visited (flush 10 accept_all s'))) ∧
  (1 ∉ tokens (erased (flush 10 accept_all s'))) ∧
  valid_token (after (flush 10 accept_all s')) 1 ∧
  visited (flush 10 accept_all s') `prefix_of` behind s'.
Proof.
  intros s s'. split; [reflexivity|]. split; [reflexivity|].
  apply (touched_entries_survive_flush s [("A", Some 1); ("C", Some 3)]
           s' [1; 3] 1 10 accept_all).
  - apply (bool_decide_unpack _). vm_compute. exact I.
  - reflexivity.
  - apply list_elem_of_here.
Defined.

(** X2 on the same cycle: exactly B is erased. *)
Lemma flush_untouched_witness :
  let s := {| ahead := [];
              behind := [mkListEntry "C" 3; mkListEntry "B" 2;
                         mkListEntry "A" 1] |} in
  let s' := {| ahead := [mkListEntry "C" 3; mkListEntry "A" 1];
               behind := [mkListEntry "B" 2] |} in
  erased (flush 10 accept_all s') = [mkListEntry "B" 2] ∧
  (mkListEntry "B" 2 ∈ erased (flush 10 accept_all s')
   ↔ mkListEntry "B" 2 ∈ entries s' ∧ 2 ∉ [1; 3]).
Proof.
  intros s s'. split; [reflexivity|].
  destruct (flush_erases_exactly_the_untouched
              s [("A", Some 1); ("C", Some 3)] s' [1; 3] 10 accept_all)
    as [H _].
  - apply (bool_decide_unpack _). vm_compute. exact I.
  - reflexivity.
  - reflexivity.
  - reflexivity.
  - simpl. lia.
  - exact (H (mkListEntry "B" 2)).
Defined.

(** C10 with [maxCount = 2] and a disposal function that refuses X only,
    on the entries Y, X, Z, W behind the marker: Y is erased, X is
    refused and stays, Z is erased, which makes two, and W is not
    visited.  The refusal of X, after the first erasure, has not
    counted. *)
Lemma refused_entries_witness :
  let s := {| ahead := [];
              behind := [mkListEntry "Y" 1; mkListEntry "X" 2;
                         mkListEntry "Z" 3; mkListEntry "W" 4] |} in
  let r := flush 2 (Some (λ data, negb (String.eqb "X" data))) s in
  visited r = [mkListEntry "Y" 1; mkListEntry "X" 2; mkListEntry "Z" 3] ∧
  erased r = [mkListEntry "Y" 1; mkListEntry "Z" 3] ∧
  length (erased r) ≤ 2 ∧
  mkListEntry "X" 2 ∈ behind (after r) ∧
  valid_token (after r) 2 ∧
  (visited r = behind s ∨
   length (erased r) = 2 ∧
   (0 < 2 → ∃ vis le, visited r = vis ++ [le] ∧
                      negb (String.eqb "X" (_data le)) = true)).
Proof.
  intros s r.
  destruct (refused_entries_stay_and_do_not_count s 2
              (λ data, negb (String.eqb "X" data)))
    as (Hstay & _ & Hlen & Hstop & _).
  - apply (bool_decide_unpack _). vm_compute. exact I.
  - destruct (Hstay (mkListEntry "X" 2)) as (Hin & Hvalid & _).
    + apply list_elem_of_further, list_elem_of_here.
    + reflexivity.
    + split_and!; [reflexivity|reflexivity|exact Hlen|exact Hin|exact Hvalid|
                   exact Hstop].
Defined.
End tracker_examples.

(** ** PriorityUpdateQueue *)

Section queue_facts.
Import PriorityUpdateQueue.
Context {P : Type} (ltb : P → P → bool).
Implicit Types (q l : list (Task P)) (t task : Task P).

Lemma insert_Task_Permutation t l : insert_Task ltb t l ≡ₚ t :: l.
Proof.
  induction l as [|x l IH]; simpl; [done|].
  destruct (comp ltb x t); [|done]. by rewrite IH, Permutation_swap.
Qed.

Lemma std_sort_Permutation q : std_sort ltb q ≡ₚ q.
Proof.
  induction q as [|t q IH]; simpl; [done|].
  by rewrite insert_Task_Permutation, IH.
Qed.

(** The loop pops and drops canceled tasks until it meets one that is
    not, or until nothing is left. *)
Lemma pop_loop_spec l :
  (∃ dropped task below,
      l = dropped ++ task :: below ∧
      Forall (λ t, discarded t = true) dropped ∧
      discarded task = false ∧
      pop_loop l = (task, below))
  ∨ (Forall (λ t, discarded t = true) l ∧ pop_loop l = (empty_Task, [])).
Proof.
  induction l as [|x l IH]; simpl.
  - right. by split.
  - destruct (discarded x) eqn:Hx.
    + destruct IH as [(dr & task & below & -> & Hdr & Htask & Hpop)|[Hall Hpop]].
      * left. exists (x :: dr), task, below. split_and!; try done.
        by constructor.
      * right. split; [by constructor|done].
    + left. exists [], x, l. by split_and!.
Qed.

(** Every task that has a [get_priority] is less than a task with none,
    and no task with none is: such a task goes after the tasks that have
    one, before the others that have none. *)
Lemma insert_Task_no_priority t l1 l2 :
  get_priority t = None →
  Forall (λ t, is_Some (get_priority t)) l1 →
  Forall (λ t, get_priority t = None) l2 →
  insert_Task ltb t (l1 ++ l2) = l1 ++ t :: l2.
Proof.
  intros Hnone H1 H2. induction H1 as [|x l1 [px Hx] H1 IH]; simpl.
  - destruct H2 as [|y l2 Hy H2]; simpl; [done|].
    unfold comp. by rewrite Hy.
  - unfold comp at 1. rewrite Hx, Hnone. by rewrite IH.
Qed.

Lemma insert_Task_with_priority t p l1 l2 :
  get_priority t = Some p →
  Forall (λ t, is_Some (get_priority t)) l1 →
  Forall (λ t, get_priority t = None) l2 →
  ∃ l1', insert_Task ltb t (l1 ++ l2) = l1' ++ l2 ∧
         Forall (λ t, is_Some (get_priority t)) l1'.
Proof.
  intros Hp H1 H2. induction H1 as [|x l1 Hx H1 IH]; simpl.
  - exists [t]. split; [|by repeat constructor].
    destruct H2 as [|y l2 Hy H2]; simpl; [done|].
    unfold comp. by rewrite Hy.
  - destruct (comp ltb x t).
    + destruct IH as (l1' & -> & Hall). exists (x :: l1').
      split; [done|by constructor].
    + exists (t :: x :: l1). split; [done|].
      constructor; [by rewrite Hp|by constructor].
Qed.

(** In the sorted vector the tasks with no [get_priority] are at the
    back, after every task that has one. *)
Lemma std_sort_no_priority_last q :
  ∃ l1 l2, std_sort ltb q = l1 ++ l2 ∧
           Forall (λ t, is_Some (get_priority t)) l1 ∧
           Forall (λ t, get_priority t = None) l2.
Proof.
  induction q as [|t q (l1 & l2 & Hs & H1 & H2)]; simpl.
  - exists [], []. by split_and!.
  - rewrite Hs. destruct (get_priority t) as [p|] eqn:Hp.
    + destruct (insert_Task_with_priority t p l1 l2 Hp H1 H2) as (l1' & -> & ?).
      by exists l1', l2.
    + rewrite insert_Task_no_priority by done.
      exists l1, (t :: l2). split_and!; [done..|]. by constructor.
Qed.

(** [<] on priorities as a strict weak ordering, which is what
    [std::sort] asks of the comparison: a strict order in which not being
    less is transitive too. *)
Section strict_weak_order.
Hypothesis ltb_asym : ∀ a b, ltb a b = true → ltb b a = false.
Hypothesis ltb_trans : ∀ a b c, ltb a b = true → ltb b c = true → ltb a c = true.
Hypothesis ltb_negtrans :
  ∀ a b c, ltb a b = false → ltb b c = false → ltb a c = false.

Lemma comp_asym t1 t2 : comp ltb t1 t2 = true → comp ltb t2 t1 = false.
Proof using ltb_asym.
  unfold comp. destruct (get_priority t1), (get_priority t2); auto.
Qed.

Lemma comp_trans t1 t2 t3 :
  comp ltb t1 t2 = true → comp ltb t2 t3 = true → comp ltb t1 t3 = true.
Proof using ltb_trans.
  unfold comp.
  destruct (get_priority t1), (get_priority t2), (get_priority t3);
    try done. apply ltb_trans.
Qed.

Lemma comp_negtrans t1 t2 t3 :
  comp ltb t1 t2 = false → comp ltb t2 t3 = false → comp ltb t1 t3 = false.
Proof using ltb_negtrans.
  unfold comp.
  destruct (get_priority t1), (get_priority t2), (get_priority t3);
    try done. apply ltb_negtrans.
Qed.

Lemma insert_Task_ascending t l :
  ascending ltb l → ascending ltb (insert_Task ltb t l).
Proof using ltb_asym ltb_trans ltb_negtrans.
  unfold ascending.
  induction 1 as [|x l Hl IH Hx]; simpl; [by repeat constructor|].
  destruct (comp ltb x t) eqn:Hxt.
  - constructor; [done|].
    rewrite (Forall_forall). intros y Hy.
    apply (elem_of_Permutation_proper _ _ _ (insert_Task_Permutation t l)) in Hy.
    apply elem_of_cons in Hy as [->|Hy]; [by apply comp_asym|].
    by apply (proj1 (Forall_forall _ _) Hx).
  - constructor; [by constructor|]. constructor; [done|].
    eapply Forall_impl; [exact Hx|]. intros y Hyx. simpl in Hyx.
    by apply (comp_negtrans y x t).
Qed.

Lemma std_sort_ascending q : ascending ltb (std_sort ltb q).
Proof using ltb_asym ltb_trans ltb_negtrans.
  induction q as [|t q IH]; simpl; [constructor|].
  by apply insert_Task_ascending.
Qed.
End strict_weak_order.

(** C4.  One [run] runs at most one operation.  On the sorted vector it
    pops tasks from the back, drops every popped task whose operation
    reports canceled without running it, and stops at the first popped
    task that does not: that task's operation is the one run (nothing is
    run when its [function] is null), and the tasks before it stay
    queued.  When every task is canceled the queue ends up empty and
    nothing is run. *)
Theorem run_runs_first_task_not_canceled q :
  (∃ below task dropped,
      std_sort ltb q = below ++ task :: dropped ∧
      Forall (λ t, discarded t = true) dropped ∧
      discarded task = false ∧
      run ltb q = (below, function task))
  ∨ (Forall (λ t, discarded t = true) q ∧ run ltb q = ([], None)).
Proof.
  destruct q as [|t0 q0] eqn:Hq; [right; by split|]. rewrite <- Hq.
  assert (Hrun : run ltb q
    = let '(task, below) := pop_loop (reverse (std_sort ltb q)) in
      (reverse below, function task)) by by rewrite Hq.
  rewrite Hrun. clear Hrun.
  destruct (pop_loop_spec (reverse (std_sort ltb q)))
    as [(dr & task & below & Hrev & Hdr & Htask & ->)|[Hall ->]].
  - left. exists (reverse below), task, (reverse dr). split_and!; try done.
    + rewrite <- (reverse_involutive (std_sort ltb q)), Hrev.
      by rewrite reverse_app, reverse_cons, <- app_assoc.
    + by apply Forall_reverse.
  - right. split; [|done].
    rewrite <- (std_sort_Permutation q). by rewrite Forall_reverse in Hall.
Qed.
(** C1 (amended).  Let [<] on priorities be a strict weak ordering, as
    [std::sort] asks.  The comparison that [run] sorts with puts a task
    with no [get_priority] after every task that has one: the sorted
    vector is a permutation of the queue, ascending, with the tasks that
    have no [get_priority] at the back.  [run] pops from the back, so when
    the queue holds a task with no [get_priority] the task popped first is
    one of those.  For a queue holding T1 with priority [p1], T2 with a
    lower priority [p2] and T3 with no [get_priority], none of them
    canceled, three successive [run]s run T3, then T1, then T2. *)
Theorem tasks_without_priority_run_first :
  (∀ a b, ltb a b = true → ltb b a = false) →
  (∀ a b c, ltb a b = true → ltb b c = true → ltb a c = true) →
  (∀ a b c, ltb a b = false → ltb b c = false → ltb a c = false) →
  (∀ q, std_sort ltb q ≡ₚ q ∧
        ascending ltb (std_sort ltb q) ∧
        ∃ l1 l2, std_sort ltb q = l1 ++ l2 ∧
                 Forall (λ t, is_Some (get_priority t)) l1 ∧
                 Forall (λ t, get_priority t = None) l2) ∧
  (∀ q t, t ∈ q → get_priority t = None →
          ∃ below back,
            std_sort ltb q = below ++ [back] ∧
            get_priority back = None ∧
            (discarded back = false → run ltb q = (below, function back))) ∧
  (∀ f1 f2 f3 p1 p2,
      ltb p2 p1 = true →
      discarded (mkTask (Some f1) (Some p1)) = false →
      discarded (mkTask (Some f2) (Some p2)) = false →
      discarded (@mkTask P (Some f3) None) = false →
      run_frames ltb 3 [mkTask (Some f1) (Some p1);
                        mkTask (Some f2) (Some p2);
                        mkTask (Some f3) None]
      = ([], [Some f3; Some f1; Some f2])).
Proof.
  intros Hasym Htrans Hnegtrans. split_and!.
  - intros q. split_and!.
    + apply std_sort_Permutation.
    + by apply std_sort_ascending.
    + apply std_sort_no_priority_last.
  - intros q t Hin Hnone.
    destruct (std_sort_no_priority_last q) as (l1 & l2 & Hs & H1 & H2).
    assert (Hin' : t ∈ l1 ++ l2) by by rewrite <- Hs, std_sort_Permutation.
    assert (Hl2 : l2 ≠ []).
    { intros ->. rewrite app_nil_r in Hin'.
      apply (proj1 (Forall_forall _ _) H1) in Hin'.
      rewrite Hnone in Hin'. by destruct Hin'. }
    destruct (exists_last Hl2) as (l2' & back & ->).
    exists (l1 ++ l2'), back. rewrite app_assoc in Hs.
    rewrite Forall_app, Forall_singleton in H2. destruct H2 as [_ Hback].
    split_and!; [done..|].
    intros Hd. unfold run. destruct q as [|t0 q0].
    { by apply elem_of_nil in Hin. }
    rewrite Hs, reverse_app. simpl. rewrite Hd.
    by rewrite reverse_involutive.
  - intros f1 f2 f3 p1 p2 Hlt Hd1 Hd2 Hd3.
    pose proof (Hasym _ _ Hlt) as Hnlt.
    set (T1 := mkTask (Some f1) (Some p1)) in *.
    set (T2 := mkTask (Some f2) (Some p2)) in *.
    set (T3 := @mkTask P (Some f3) None) in *.
    assert (Hs3 : std_sort ltb [T1; T2; T3] = [T2; T1; T3]).
    { cbn [std_sort foldr insert_Task comp get_priority T1 T2 T3].
      by rewrite Hlt. }
    assert (Hs2 : std_sort ltb [T2; T1] = [T2; T1]).
    { cbn [std_sort foldr insert_Task comp get_priority T1 T2].
      by rewrite Hnlt. }
    assert (Hr1 : run ltb [T1; T2; T3] = ([T2; T1], Some f3)).
    { unfold run. rewrite Hs3. cbn [reverse rev_append pop_loop].
      by rewrite Hd3. }
    assert (Hr2 : run ltb [T2; T1] = ([T2], Some f1)).
    { unfold run. rewrite Hs2. cbn [reverse rev_append pop_loop].
      by rewrite Hd1. }
    assert (Hr3 : run ltb [T2] = ([], Some f2)).
    { unfold run. cbn [std_sort foldr insert_Task reverse rev_append pop_loop].
      by rewrite Hd2. }
    cbn [run_frames]. by rewrite Hr1, Hr2, Hr3.
Qed.
End queue_facts.

Section queue_examples.
Import PriorityUpdateQueue Scenario.

(** C1, as stated, fails: with T1 of priority 5, T2 of priority 1 and T3
    with no [get_priority] queued, three [run]s run T3 first, then T1,
    then T2. *)
Lemma run_frames_run_T3_first :
  std_sort Z.ltb [T1; T2; T3] = [T2; T1; T3] ∧
  run_frames Z.ltb 3 [T1; T2; T3] = ([], [Some (op 3); Some (op 1); Some (op 2)]).
Proof. split; reflexivity. Qed.

(** The order of the sorted vector does not depend on how [std::sort]
    proceeds: [T2; T1; T3] is the only ascending arrangement of the three
    tasks. *)
Lemma ascending_T2_T1_T3_only q :
  q ≡ₚ [T1; T2; T3] → ascending Z.ltb q → q = [T2; T1; T3].
Proof.
  intros Hp Hs. symmetry in Hp. apply permutations_Permutation in Hp.
  vm_compute in Hp.
  repeat (apply elem_of_cons in Hp as [->|Hp]); try done;
    try (by apply elem_of_nil in Hp);
    exfalso; unfold ascending in Hs;
    repeat match goal with
           | H : StronglySorted _ (_ :: _) |- _ =>
               apply StronglySorted_inv in H as [? ?]
           | H : Forall _ (_ :: _) |- _ => apply Forall_cons in H as [? ?]
           end;
    discriminate.
Qed.

(** C1 (amended) on the tasks of the scenario, with whole-number
    priorities. *)
Lemma tasks_without_priority_witness :
  run Z.ltb [T1; T2; T3] = ([T2; T1], Some (op 3)) ∧
  run_frames Z.ltb 3 [T1; T2; T3] = ([], [Some (op 3); Some (op 1); Some (op 2)]).
Proof.
  split; [reflexivity|].
  destruct (tasks_without_priority_run_first Z.ltb) as (_ & _ & H).
  - intros a b Hab%Z.ltb_lt. apply Z.ltb_ge. lia.
  - intros a b c Hab%Z.ltb_lt Hbc%Z.ltb_lt. apply Z.ltb_lt. lia.
  - intros a b c Hab%Z.ltb_ge Hbc%Z.ltb_ge. apply Z.ltb_ge. lia.
  - apply (H (op 1) (op 2) (op 3) 5%Z 1%Z); reflexivity.
Defined.
End queue_examples.

(** ** VSGContextImpl: deferred disposal *)

Section context_facts.
Import VSGContextImpl.
Context {Object User : Type}.
Implicit Types (s : t Object User) (q : list (list Object)).
Implicit Types (x : Object) (o : option Object) (c : cycle Object).

(** *** [back_emplace_back] *)

Lemma back_emplace_back_length q x :
  length (back_emplace_back q x) = length q.
Proof.
  induction q as [|a q IH]; [done|].
  destruct q as [|b r]; [done|]. simpl in *. by rewrite IH.
Qed.

Lemma back_emplace_back_held q y j x :
  held_at q j x → held_at (back_emplace_back q y) j x.
Proof.
  unfold held_at. revert j. induction q as [|a q IH]; intros j.
  - by intros (slot & ? & _).
  - destruct q as [|b r].
    + destruct j as [|j]; simpl.
      * intros (slot & [= <-] & Hx). exists (a ++ [y]).
        split; [done|]. apply elem_of_app. by left.
      * by intros (slot & ? & _).
    + destruct j as [|j].
      * intros (slot & [= <-] & Hx). by exists a.
      * intros Hj. apply (IH j) in Hj. exact Hj.
Qed.

Lemma back_emplace_back_take q y i :
  i < length q → take i (back_emplace_back q y) = take i q.
Proof.
  revert i. induction q as [|a q IH]; intros i Hi; [done|].
  destruct q as [|b r].
  - simpl in Hi. by replace i with 0 by lia.
  - destruct i as [|i]; [done|].
    change (a :: take i (back_emplace_back (b :: r) y) = a :: take i (b :: r)).
    rewrite IH; [done|]. simpl in *. lia.
Qed.

Lemma back_emplace_back_last q y :
  q ≠ [] → held_at (back_emplace_back q y) (length q - 1) y.
Proof.
  unfold held_at. induction q as [|a q IH]; intros Hq; [done|].
  destruct q as [|b r].
  - exists (a ++ [y]). split; [done|]. apply elem_of_app. right.
    apply list_elem_of_here.
  - destruct IH as (slot & Hl & Hy); [done|].
    exists slot. split; [|done].
    replace (length (a :: b :: r) - 1) with (S (length (b :: r) - 1))
      by (simpl; lia).
    exact Hl.
Qed.

Lemma back_emplace_back_concat q y x :
  x ∈ concat (back_emplace_back q y) → x ∈ concat q ∨ x = y.
Proof.
  induction q as [|a q IH]; [by left|].
  destruct q as [|b r].
  - simpl. rewrite !app_nil_r, elem_of_app.
    intros [?|?%list_elem_of_singleton]; auto.
  - change (x ∈ a ++ concat (back_emplace_back (b :: r) y)
            → x ∈ a ++ concat (b :: r) ∨ x = y).
    rewrite !elem_of_app. intros [?|[?|?]%IH]; auto.
Qed.

(** *** [dispose] and [disposes] *)

Lemma dispose_viewer s o : viewer (dispose s o) = viewer s.
Proof. unfold dispose. by destruct o, (disposer s). Qed.

Lemma dispose_disposer s o : disposer (dispose s o) = disposer s.
Proof. unfold dispose. by destruct o, (disposer s). Qed.

Lemma dispose_length s o :
  length (_disposal_queue (dispose s o)) = length (_disposal_queue s).
Proof.
  unfold dispose. destruct o as [y|], (disposer s); simpl; try done.
  apply back_emplace_back_length.
Qed.

Lemma dispose_held s o j x :
  held_at (_disposal_queue s) j x → held_at (_disposal_queue (dispose s o)) j x.
Proof.
  unfold dispose. destruct o as [y|], (disposer s); simpl; try done.
  apply back_emplace_back_held.
Qed.

Lemma dispose_absent_below s o i x :
  i < length (_disposal_queue s) →
  absent_below (_disposal_queue s) i x →
  absent_below (_disposal_queue (dispose s o)) i x.
Proof.
  unfold dispose, absent_below.
  destruct o as [y|], (disposer s); simpl; try done.
  intros Hi. by rewrite back_emplace_back_take.
Qed.

Lemma dispose_absent s o x :
  is_Some (disposer s) ∨ o ≠ Some x →
  x ∉ concat (_disposal_queue s) →
  x ∉ concat (_disposal_queue (dispose s o)).
Proof.
  unfold dispose. intros Hor Hx.
  destruct o as [y|], (disposer s) eqn:Hd; simpl; try done.
  intros [?| ->]%back_emplace_back_concat; [done|].
  destruct Hor as [[? [=]]|Hne]; by apply Hne.
Qed.

Lemma dispose_puts s x :
  disposer s = None → _disposal_queue s ≠ [] →
  held_at (_disposal_queue (dispose s (Some x)))
          (length (_disposal_queue s) - 1) x.
Proof.
  unfold dispose. intros -> Hq. simpl. by apply back_emplace_back_last.
Qed.

Lemma disposes_viewer s objs : viewer (disposes s objs) = viewer s.
Proof.
  revert s. induction objs as [|o objs IH]; intros s; [done|].
  simpl. by rewrite IH, dispose_viewer.
Qed.

Lemma disposes_disposer s objs : disposer (disposes s objs) = disposer s.
Proof.
  revert s. induction objs as [|o objs IH]; intros s; [done|].
  simpl. by rewrite IH, dispose_disposer.
Qed.

Lemma disposes_length s objs :
  length (_disposal_queue (disposes s objs)) = length (_disposal_queue s).
Proof.
  revert s. induction objs as [|o objs IH]; intros s; [done|].
  simpl. by rewrite IH, dispose_length.
Qed.

Lemma disposes_held s objs j x :
  held_at (_disposal_queue s) j x →
  held_at (_disposal_queue (disposes s objs)) j x.
Proof.
  revert s. induction objs as [|o objs IH]; intros s Hh; [done|].
  simpl. by apply IH, dispose_held.
Qed.

Lemma disposes_absent_below s objs i x :
  i < length (_disposal_queue s) →
  absent_below (_disposal_queue s) i x →
  absent_below (_disposal_queue (disposes s objs)) i x.
Proof.
  revert s. induction objs as [|o objs IH]; intros s Hi Ha; [done|].
  simpl. apply IH; [by rewrite dispose_length|by apply dispose_absent_below].
Qed.

Lemma disposes_absent s objs x :
  is_Some (disposer s) ∨ Some x ∉ objs →
  x ∉ concat (_disposal_queue s) →
  x ∉ concat (_disposal_queue (disposes s objs)).
Proof.
  revert s. induction objs as [|o objs IH]; intros s Hor Hx; [done|].
  simpl. apply IH.
  - rewrite dispose_disposer. destruct Hor as [?|Hn]; [by left|right].
    by apply not_elem_of_cons in Hn as [_ ?].
  - apply dispose_absent; [|done]. destruct Hor as [?|Hn]; [by left|right].
    apply not_elem_of_cons in Hn as [Hne _]. congruence.
Qed.

Lemma disposes_puts s objs x :
  disposer s = None → _disposal_queue s ≠ [] → Some x ∈ objs →
  held_at (_disposal_queue (disposes s objs))
          (length (_disposal_queue s) - 1) x.
Proof.
  revert s. induction objs as [|o objs IH]; intros s Hd Hq Hin.
  - by apply elem_of_nil in Hin.
  - simpl. apply elem_of_cons in Hin as [<-|Hin].
    + by apply disposes_held, dispose_puts.
    + rewrite <- (dispose_length s o). apply IH; [|  |done].
      * by rewrite dispose_disposer.
      * intros Hnil. apply Hq, nil_length_inv.
        by rewrite <- (dispose_length s o), Hnil.
Qed.

(** *** [update] *)

(** With a null [viewer], [update] is the early return. *)
Lemma update_without_viewer s : viewer s = false → update s = (s, []).
Proof. unfold update. by intros ->. Qed.

Lemma update_viewer s : viewer (update s).1 = viewer s.
Proof. unfold update. by destruct (viewer s) eqn:Hv, (_disposal_queue s). Qed.

Lemma update_disposer s : disposer (update s).1 = disposer s.
Proof. unfold update. by destruct (viewer s), (_disposal_queue s). Qed.

Lemma update_length s :
  length (_disposal_queue (update s).1) = length (_disposal_queue s).
Proof.
  unfold update. destruct (viewer s); [|done].
  destruct (_disposal_queue s) as [|front rest] eqn:Hq; simpl.
  - by rewrite Hq.
  - rewrite length_app. simpl. lia.
Qed.

Lemma update_held_0 s x :
  viewer s = true →
  held_at (_disposal_queue s) 0 x → x ∈ (update s).2.
Proof.
  unfold update, held_at. intros ->.
  destruct (_disposal_queue s) as [|front rest].
  - by intros (? & ? & _).
  - by intros (slot & [= <-] & ?).
Qed.

Lemma update_held_S s j x :
  viewer s = true →
  held_at (_disposal_queue s) (S j) x →
  held_at (_disposal_queue (update s).1) j x.
Proof.
  unfold update, held_at. intros ->.
  destruct (_disposal_queue s) as [|front rest].
  - by intros (? & ? & _).
  - simpl. intros (slot & Hl & ?). exists slot. split; [|done].
    by apply lookup_app_l_Some.
Qed.

Lemma absent_below_S q i x : absent_below q (S i) x → absent_below q i x.
Proof.
  unfold absent_below. intros Hx Hin. apply Hx.
  replace (S i) with (i + 1) by lia.
  rewrite <- (take_take_drop q i 1), concat_app, elem_of_app. by left.
Qed.

Lemma concat_take_snoc_nil q i x :
  x ∈ concat (take i (q ++ [[]])) → x ∈ concat (take i q).
Proof.
  rewrite take_app. rewrite concat_app, elem_of_app. intros [?|Hx]; [done|].
  destruct (i - length q) as [|[|n]]; simpl in Hx; by apply elem_of_nil in Hx.
Qed.

Lemma update_absent_below s i x :
  absent_below (_disposal_queue s) (S i) x →
  (x ∉ (update s).2) ∧ absent_below (_disposal_queue (update s).1) i x.
Proof.
  destruct (viewer s) eqn:Hv.
  2:{ rewrite update_without_viewer by done. simpl. intros Ha.
      split; [apply not_elem_of_nil|by apply absent_below_S]. }
  unfold update, absent_below. rewrite Hv.
  destruct (_disposal_queue s) as [|front rest] eqn:Hq.
  - simpl. intros _. split; [apply not_elem_of_nil|].
    rewrite Hq, take_nil. apply not_elem_of_nil.
  - simpl. rewrite not_elem_of_app. intros [Hf Hr]. split; [done|].
    intros Hx. by apply Hr, concat_take_snoc_nil.
Qed.

Lemma update_absent s x :
  x ∉ concat (_disposal_queue s) →
  (x ∉ (update s).2) ∧ (x ∉ concat (_disposal_queue (update s).1)).
Proof.
  unfold update. destruct (viewer s).
  2:{ simpl. intros Hx. split; [apply not_elem_of_nil|done]. }
  destruct (_disposal_queue s) as [|front rest] eqn:Hq.
  - simpl. rewrite Hq. intros _. split; apply not_elem_of_nil.
  - simpl. rewrite not_elem_of_app. intros [Hf Hr]. split; [done|].
    rewrite concat_app. simpl. by rewrite app_nil_r.
Qed.
(** *** One cycle, several cycles *)

Lemma run_cycle_eq s c :
  run_cycle s c
  = (disposes (update (disposes s (before_update c))).1 (after_update c),
     (update (disposes s (before_update c))).2).
Proof. unfold run_cycle. by destruct (update _). Qed.

Lemma run_cycles_cons s c cs :
  run_cycles s (c :: cs)
  = ((run_cycles (run_cycle s c).1 cs).1,
     (run_cycle s c).2 :: (run_cycles (run_cycle s c).1 cs).2).
Proof.
  simpl. destruct (run_cycle s c) as [s1 rel]. simpl.
  by destruct (run_cycles s1 cs).
Qed.

Lemma run_cycle_viewer s c : viewer (run_cycle s c).1 = viewer s.
Proof.
  rewrite run_cycle_eq. simpl.
  by rewrite disposes_viewer, update_viewer, disposes_viewer.
Qed.

Lemma run_cycle_disposer s c : disposer (run_cycle s c).1 = disposer s.
Proof.
  rewrite run_cycle_eq. simpl.
  by rewrite disposes_disposer, update_disposer, disposes_disposer.
Qed.

Lemma run_cycle_length s c :
  length (_disposal_queue (run_cycle s c).1) = length (_disposal_queue s).
Proof.
  rewrite run_cycle_eq. simpl.
  by rewrite disposes_length, update_length, disposes_length.
Qed.

Lemma run_cycle_held_0 s c x :
  viewer s = true →
  held_at (_disposal_queue s) 0 x → x ∈ (run_cycle s c).2.
Proof.
  intros Hv Hh. rewrite run_cycle_eq. simpl.
  apply update_held_0; [by rewrite disposes_viewer|by apply disposes_held].
Qed.

Lemma run_cycle_held_S s c j x :
  viewer s = true →
  held_at (_disposal_queue s) (S j) x →
  held_at (_disposal_queue (run_cycle s c).1) j x.
Proof.
  intros Hv Hh. rewrite run_cycle_eq. simpl.
  apply disposes_held, update_held_S; [by rewrite disposes_viewer|].
  by apply disposes_held.
Qed.

Lemma run_cycle_absent_below s c i x :
  S i < length (_disposal_queue s) →
  absent_below (_disposal_queue s) (S i) x →
  (x ∉ (run_cycle s c).2) ∧
  absent_below (_disposal_queue (run_cycle s c).1) i x.
Proof.
  intros Hi Ha. rewrite run_cycle_eq. simpl.
  apply (disposes_absent_below _ (before_update c)) in Ha; [|done].
  apply update_absent_below in Ha as [Hrel Ha]. split; [done|].
  apply disposes_absent_below; [|done].
  rewrite update_length, disposes_length. lia.
Qed.

Lemma run_cycle_absent s c x :
  is_Some (disposer s) ∨ ¬ disposed_in c x →
  x ∉ concat (_disposal_queue s) →
  (x ∉ (run_cycle s c).2) ∧ (x ∉ concat (_disposal_queue (run_cycle s c).1)).
Proof.
  intros Hor Hx. rewrite run_cycle_eq. simpl.
  apply (disposes_absent _ (before_update c)) in Hx.
  2:{ destruct Hor as [?|Hn]; [by left|right].
      intros ?. apply Hn. by left. }
  apply update_absent in Hx as [Hrel Hx]. split; [done|].
  apply disposes_absent; [|done].
  rewrite update_disposer, disposes_disposer.
  destruct Hor as [?|Hn]; [by left|right]. intros ?. apply Hn. by right.
Qed.

Lemma run_cycle_puts_after s c x :
  disposer s = None → _disposal_queue s ≠ [] → Some x ∈ after_update c →
  held_at (_disposal_queue (run_cycle s c).1)
          (length (_disposal_queue s) - 1) x.
Proof.
  intros Hd Hq Hin. rewrite run_cycle_eq. simpl.
  set (s1 := (update (disposes s (before_update c))).1).
  assert (Hlen : length (_disposal_queue s1) = length (_disposal_queue s)).
  { unfold s1. by rewrite update_length, disposes_length. }
  rewrite <- Hlen. apply disposes_puts; [|  |done].
  - unfold s1. by rewrite update_disposer, disposes_disposer.
  - intros Hnil. apply Hq, nil_length_inv. by rewrite <- Hlen, Hnil.
Qed.

(** The disposals made before the [update] of the first cycle may as
    well have been made before the cycles start. *)
Lemma run_cycles_before_update s c cs :
  run_cycles s (c :: cs)
  = run_cycles (disposes s (before_update c))
               (mkCycle [] (after_update c) :: cs).
Proof. by rewrite !run_cycles_cons, !run_cycle_eq. Qed.

Lemma run_cycles_app s cs1 cs2 :
  run_cycles s (cs1 ++ cs2)
  = ((run_cycles (run_cycles s cs1).1 cs2).1,
     (run_cycles s cs1).2 ++ (run_cycles (run_cycles s cs1).1 cs2).2).
Proof.
  revert s. induction cs1 as [|c cs1 IH]; intros s.
  - simpl. by destruct (run_cycles s cs2).
  - rewrite <- app_comm_cons, !run_cycles_cons. simpl. by rewrite IH.
Qed.

Lemma run_cycles_log_length s cs : length (run_cycles s cs).2 = length cs.
Proof.
  revert s. induction cs as [|c cs IH]; intros s; [done|].
  rewrite run_cycles_cons. simpl. by rewrite IH.
Qed.

Lemma run_cycles_viewer s cs : viewer (run_cycles s cs).1 = viewer s.
Proof.
  revert s. induction cs as [|c cs IH]; intros s; [done|].
  rewrite run_cycles_cons. simpl. by rewrite IH, run_cycle_viewer.
Qed.

Lemma run_cycles_disposer s cs : disposer (run_cycles s cs).1 = disposer s.
Proof.
  revert s. induction cs as [|c cs IH]; intros s; [done|].
  rewrite run_cycles_cons. simpl. by rewrite IH, run_cycle_disposer.
Qed.

Lemma run_cycles_length s cs :
  length (_disposal_queue (run_cycles s cs).1) = length (_disposal_queue s).
Proof.
  revert s. induction cs as [|c cs IH]; intros s; [done|].
  rewrite run_cycles_cons. simpl. by rewrite IH, run_cycle_length.
Qed.

(** An object that is not in the deque, and that is not put there, is
    released by no [update]. *)
Lemma run_cycles_absent s cs x :
  is_Some (disposer s) ∨ Forall (λ c, ¬ disposed_in c x) cs →
  x ∉ concat (_disposal_queue s) →
  Forall (λ rel, x ∉ rel) (run_cycles s cs).2 ∧
  (x ∉ concat (_disposal_queue (run_cycles s cs).1)).
Proof.
  revert s. induction cs as [|c cs IH]; intros s Hor Hx.
  - by split.
  - rewrite run_cycles_cons. simpl.
    destruct (run_cycle_absent s c x) as [Hrel Hx1]; [|done|].
    { destruct Hor as [?|Hall]; [by left|right].
      by apply Forall_cons in Hall as [? _]. }
    destruct (IH (run_cycle s c).1) as [Hlog Hx2]; [|done|].
    { rewrite run_cycle_disposer. destruct Hor as [?|Hall]; [by left|right].
      by apply Forall_cons in Hall as [_ ?]. }
    split; [by constructor|done].
Qed.

(** An object that is in none of the first [i] collections is not
    released by the first [i] updates, whatever is disposed of
    meanwhile. *)
Lemma run_cycles_not_before s cs i x d rel :
  i < length (_disposal_queue s) →
  absent_below (_disposal_queue s) i x →
  d < i →
  (run_cycles s cs).2 !! d = Some rel →
  x ∉ rel.
Proof.
  revert s i d. induction cs as [|c cs IH]; intros s i d Hi Ha Hd; [done|].
  rewrite run_cycles_cons. simpl.
  destruct i as [|i]; [lia|].
  destruct (run_cycle_absent_below s c i x Hi Ha) as [Hrel Ha1].
  destruct d as [|d]; simpl.
  - by intros [= <-].
  - apply (IH _ i); [rewrite run_cycle_length; lia|done|lia].
Qed.

(** With a viewer, an object in the collection at index [j] is released
    by the update of the [j]-th cycle from here. *)
Lemma run_cycles_released s cs j x :
  viewer s = true →
  held_at (_disposal_queue s) j x →
  j < length cs →
  ∃ rel, (run_cycles s cs).2 !! j = Some rel ∧ x ∈ rel.
Proof.
  revert s j. induction cs as [|c cs IH]; intros s j Hv Hh Hj;
    [simpl in Hj; lia|].
  rewrite run_cycles_cons. simpl. destruct j as [|j]; simpl.
  - eexists. split; [done|]. by apply run_cycle_held_0.
  - apply IH; [by rewrite run_cycle_viewer|by apply run_cycle_held_S|
               simpl in Hj; lia].
Qed.

(** C2.  The context has its viewer (without one, [update] returns at
    once and releases nothing), no custom disposer is installed and the
    deque holds [N] collections ([N] is 8 as constructed).  An object [x] is disposed of
    in cycle [k], and not before.  Then no [update] of a cycle before
    [k + N - 1] releases [x]; the [update] of cycle [k + N - 1] releases
    it when it was disposed of before the [update] of cycle [k], and the
    [update] of cycle [k + N] releases it when it was disposed of after
    that [update]: it is released in cycle [k + N - 1] or [k + N]. *)
Theorem disposed_object_released_after_N_updates s cs N k c x :
  viewer s = true →
  disposer s = None →
  length (_disposal_queue s) = N →
  0 < N →
  x ∉ concat (_disposal_queue s) →
  (∀ i c', i < k → cs !! i = Some c' → ¬ disposed_in c' x) →
  cs !! k = Some c →
  disposed_in c x →
  (∀ d rel, d < k + N - 1 → (run_cycles s cs).2 !! d = Some rel → x ∉ rel) ∧
  (Some x ∈ before_update c → k + N - 1 < length cs →
   ∃ rel, (run_cycles s cs).2 !! (k + N - 1) = Some rel ∧ x ∈ rel) ∧
  (Some x ∈ after_update c → k + N < length cs →
   ∃ rel, (run_cycles s cs).2 !! (k + N) = Some rel ∧ x ∈ rel) ∧
  (k + N < length cs →
   ∃ d rel, k + N - 1 ≤ d ≤ k + N ∧
            (run_cycles s cs).2 !! d = Some rel ∧ x ∈ rel).
Proof.
  intros Hv Hd HN Hpos Hx Hfirst Hc Hin.
  pose proof (take_drop_middle cs k c Hc) as Hcs.
  set (cs1 := take k cs) in *. set (cs2 := drop (S k) cs) in *.
  assert (Hlen1 : length cs1 = k).
  { unfold cs1. rewrite length_take. apply lookup_lt_Some in Hc. lia. }
  assert (Hlencs : length cs = k + S (length cs2)).
  { rewrite <- Hcs, length_app. simpl. lia. }
  set (st := (run_cycles s cs1).1).
  assert (Hlog : (run_cycles s cs).2
                 = (run_cycles s cs1).2 ++ (run_cycles st (c :: cs2)).2).
  { rewrite <- Hcs at 1. by rewrite run_cycles_app. }
  assert (Hloglen : length (run_cycles s cs1).2 = k).
  { by rewrite run_cycles_log_length. }
  destruct (run_cycles_absent s cs1 x) as [Hlog1 Hxt]; [|done|].
  { right. apply Forall_forall. intros c' Hc'.
    apply list_elem_of_lookup in Hc' as [i Hi].
    unfold cs1 in Hi. apply lookup_take_Some in Hi as [Hi Hit].
    by eapply Hfirst. }
  fold st in Hxt.
  assert (Hvt : viewer st = true).
  { unfold st. by rewrite run_cycles_viewer. }
  assert (Hdt : disposer st = None).
  { unfold st. by rewrite run_cycles_disposer. }
  assert (HNt : length (_disposal_queue st) = N).
  { unfold st. by rewrite run_cycles_length. }
  assert (Hqt : _disposal_queue st ≠ []).
  { intros Hnil. rewrite Hnil in HNt. simpl in HNt. lia. }
  assert (Hearly : ∀ d rel, d < k + N - 1 →
            (run_cycles s cs).2 !! d = Some rel → x ∉ rel).
  { intros d rel Hdlt. rewrite Hlog. destruct (decide (d < k)) as [Hlt|Hge].
    - rewrite lookup_app_l by lia. intros Hl.
      apply list_elem_of_lookup_2 in Hl.
      by apply (proj1 (Forall_forall _ _) Hlog1).
    - rewrite lookup_app_r by lia. rewrite Hloglen.
      apply (run_cycles_not_before st (c :: cs2) (N - 1)); [lia| |lia].
      unfold absent_below. intros Hx'. apply Hxt.
      rewrite <- (take_drop (N - 1) (_disposal_queue st)), concat_app.
      apply elem_of_app. by left. }
  assert (Hbefore : Some x ∈ before_update c → k + N - 1 < length cs →
            ∃ rel, (run_cycles s cs).2 !! (k + N - 1) = Some rel ∧ x ∈ rel).
  { intros Hb Hlt. rewrite Hlog, lookup_app_r by lia. rewrite Hloglen.
    replace (k + N - 1 - k) with (N - 1) by lia.
    rewrite run_cycles_before_update.
    apply run_cycles_released; [by rewrite disposes_viewer| |simpl; lia].
    rewrite <- HNt. by apply disposes_puts. }
  assert (Hafter : Some x ∈ after_update c → k + N < length cs →
            ∃ rel, (run_cycles s cs).2 !! (k + N) = Some rel ∧ x ∈ rel).
  { intros Ha Hlt. rewrite Hlog, lookup_app_r by lia. rewrite Hloglen.
    replace (k + N - k) with (S (N - 1)) by lia.
    rewrite run_cycles_cons. simpl.
    apply run_cycles_released; [by rewrite run_cycle_viewer| |lia].
    rewrite <- HNt. by apply run_cycle_puts_after. }
  split_and!; [done..|].
  intros Hlt. destruct Hin as [Hb|Ha].
  - destruct Hbefore as (rel & Hl & Hr); [done|lia|].
    exists (k + N - 1), rel. split_and!; (done || lia).
  - destruct Hafter as (rel & Hl & Hr); [done|lia|].
    exists (k + N), rel. split_and!; (done || lia).
Qed.

(** C9.  With a custom disposer installed, [dispose] of a non-null object
    calls the disposer and leaves [_disposal_queue] as it is, so what the
    updates release is the same as without the call, and an object that
    is not in the deque is never released by an [update]: only the
    disposer holds it.  [dispose] of a null object changes nothing,
    whether a disposer is installed or not. *)
Theorem custom_disposer_bypasses_the_queue s f x :
  disposer s = Some f →
  dispose s (Some x)
    = {| viewer := viewer s;
         disposer := disposer s;
         _disposal_queue := _disposal_queue s;
         user := f x (user s) |} ∧
  (x ∉ concat (_disposal_queue s) →
   ∀ cs, Forall (λ rel, x ∉ rel) (run_cycles (dispose s (Some x)) cs).2) ∧
  (∀ s0 : t Object User, dispose s0 None = s0).
Proof.
  intros Hd. split_and!.
  - unfold dispose. by rewrite Hd.
  - intros Hx cs. apply run_cycles_absent.
    + left. rewrite dispose_disposer, Hd. by eexists.
    + apply dispose_absent; [|done]. left. rewrite Hd. by eexists.
  - done.
Qed.
End context_facts.

Section context_examples.
Import VSGContextImpl Scenario.

(** The deque as constructed has 8 collections: with a viewer, an object
    disposed of in cycle 0, before the [update], is released by the [update] of
    cycle 7. *)
Lemma ctor_releases_in_cycle_7 :
  (run_cycles (ctor true tt)
     (mkCycle [Some "X"] [] :: replicate 8 (mkCycle [] []))).2
  = [[]; []; []; []; []; []; []; ["X"]; []].
Proof. reflexivity. Qed.

(** C2 with [N = 3]: X is disposed of in cycle 0 before the [update]; the
    updates of cycles 0 and 1 release nothing, the update of cycle 2 (the
    third one) releases X. *)
Lemma disposal_with_3_collections_witness :
  (run_cycles ring3 cycles_X).2 = [[]; []; ["X"]; []] ∧
  (∀ d rel, d < 2 → (run_cycles ring3 cycles_X).2 !! d = Some rel →
            "X" ∉ rel) ∧
  (∃ rel, (run_cycles ring3 cycles_X).2 !! 2 = Some rel ∧ "X" ∈ rel).
Proof.
  split; [reflexivity|].
  destruct (disposed_object_released_after_N_updates
              ring3 cycles_X 3 0 (mkCycle [Some "X"] []) "X")
    as (H1 & H2 & _).
  - reflexivity.
  - reflexivity.
  - reflexivity.
  - lia.
  - simpl. apply not_elem_of_nil.
  - intros i c' Hi. lia.
  - reflexivity.
  - left. apply list_elem_of_here.
  - split; [exact H1|]. apply H2; [apply list_elem_of_here|simpl; lia].
Defined.

(** C9 on a context whose disposer records what it is handed: X goes to
    the disposer, the deque stays empty and no update releases X. *)
Lemma custom_disposer_witness :
  dispose with_disposer (Some "X")
    = mk true (disposer with_disposer) (replicate 8 []) ["X"] ∧
  Forall (λ rel, "X" ∉ rel)
    (run_cycles (dispose with_disposer (Some "X"))
       (replicate 9 (mkCycle [] []))).2.
Proof.
  destruct (custom_disposer_bypasses_the_queue
              with_disposer (λ o handed, handed ++ [o]) "X")
    as (H1 & H2 & _).
  - reflexivity.
  - split; [exact H1|]. apply H2. simpl. apply not_elem_of_nil.
Defined.
End context_examples.

(** ** BingImageLayer::createImageImplementation *)

Section bing_facts.
Import BingImageLayer.
Context {TileKey URI Content Image Cache : Type}.
Context (cache_get : Cache → TileKey → option (Result URI)).
Context (cache_put : Cache → TileKey → Result URI → Cache).
Context (metadataURI : TileKey → URI) (imageUrl : Content → option URI).

Local Abbreviation create :=
  (createImageImplementation cache_get cache_put metadataURI imageUrl).
Local Abbreviation lookups' :=
  (lookups cache_get cache_put metadataURI imageUrl).

Implicit Types (cache : Cache) (key : TileKey) (st : Status).
Implicit Types (io : IOOptions URI Content Image).
Implicit Types (ios : list (IOOptions URI Content Image)).

(** A cached failure is returned as it is: nothing is read, the cache is
    left alone. *)
Lemma create_cached_failure cache key st io :
  cache_get cache key = Some (Failed st) →
  create cache key io = mkCreated cache [] (Failed st).
Proof. intros Hhit. unfold createImageImplementation. by rewrite Hhit. Qed.

Lemma lookups_cached_failure cache key st ios :
  cache_get cache key = Some (Failed st) →
  lookups' cache key ios = (cache, [], replicate (length ios) (Failed st)).
Proof.
  intros Hhit. induction ios as [|io ios IH]; [done|].
  simpl. rewrite (create_cached_failure _ _ st) by done. simpl.
  by rewrite IH.
Qed.

(** A metadata read that fails, or that has no image URL to give, puts
    the failure in the cache. *)
Lemma create_failing_metadata cache key io r :
  cache_get cache key = None →
  match read io (metadataURI key) with
  | Ok data =>
      match imageUrl data with
      | Some _ => False
      | None => r = mkStatus ResourceUnavailable "No data at this level"
      end
  | Failed st => r = st
  end →
  create cache key io
  = mkCreated (cache_put cache key (Failed r)) [metadataURI key] (Failed r).
Proof.
  intros Hmiss Hfail. unfold createImageImplementation. rewrite Hmiss.
  destruct (read io (metadataURI key)) as [data|st].
  - destruct (imageUrl data); [done|]. by subst r.
  - by subst r.
Qed.

(** C7.  A failure the cache holds for a key is what every call for that
    key returns, with no read at all and the cache left as it is, for any
    number of calls in a row and whatever the network would answer by
    then.  A call that finds nothing cached and whose metadata read fails
    caches that failure (so does one whose metadata names no image), and
    the calls that follow return it without reading the metadata
    again.  The cache is a parameter: all that is asked of it is that
    [get] after [put] of a key returns what was put. *)
Theorem failed_metadata_fetch_is_memoized cache key :
  (∀ c k v, cache_get (cache_put c k v) k = Some v) →
  (∀ st, cache_get cache key = Some (Failed st) →
     (∀ io, createImageImplementation cache_get cache_put metadataURI imageUrl
       cache key io = mkCreated cache [] (Failed st)) ∧
     (∀ ios, lookups cache_get cache_put metadataURI imageUrl cache key ios
             = (cache, [], replicate (length ios) (Failed st)))) ∧
  (∀ io st, cache_get cache key = None →
     read io (metadataURI key) = Failed st →
     createImageImplementation cache_get cache_put metadataURI imageUrl
       cache key io
       = mkCreated (cache_put cache key (Failed st)) [metadataURI key]
                   (Failed st) ∧
     (∀ ios, lookups cache_get cache_put metadataURI imageUrl
               (cache_put cache key (Failed st)) key ios
             = (cache_put cache key (Failed st), [],
                replicate (length ios) (Failed st)))) ∧
  (∀ io data, cache_get cache key = None →
     read io (metadataURI key) = Ok data →
     imageUrl data = None →
     ∃ st, code st = ResourceUnavailable ∧
       createImageImplementation cache_get cache_put metadataURI imageUrl
       cache key io
         = mkCreated (cache_put cache key (Failed st)) [metadataURI key]
                     (Failed st) ∧
       (∀ ios, lookups cache_get cache_put metadataURI imageUrl
               (cache_put cache key (Failed st)) key ios
               = (cache_put cache key (Failed st), [],
                  replicate (length ios) (Failed st)))).
Proof.
  intros Hlaw. split_and!.
  - intros st Hhit. split.
    + intros io. by apply create_cached_failure.
    + intros ios. by apply lookups_cached_failure.
  - intros io st Hmiss Hread. split.
    + apply create_failing_metadata; [done|]. by rewrite Hread.
    + intros ios. by apply lookups_cached_failure.
  - intros io data Hmiss Hread Hnone.
    exists (mkStatus ResourceUnavailable "No data at this level").
    split_and!; [done| |].
    + apply create_failing_metadata; [done|]. by rewrite Hread, Hnone.
    + intros ios. by apply lookups_cached_failure.
Qed.
(** X1.  Calls made one after the other read the metadata of a key at most
    once: a call leaves the key cached, and a call that finds the key
    cached leaves the cache as it is and reads nothing but the image URI
    that the cache holds, if it holds one. *)
Theorem cached_key_is_not_fetched_again cache key io :
  (∀ c k v, cache_get (cache_put c k v) k = Some v) →
  is_Some (cache_get
             (cache_after
                (createImageImplementation cache_get cache_put metadataURI
                   imageUrl cache key io)) key) ∧
  (cache_get cache key = None →
   ∃ more,
     reads (createImageImplementation cache_get cache_put metadataURI
              imageUrl cache key io) = metadataURI key :: more) ∧
  (∀ r, cache_get cache key = Some r →
     cache_after (createImageImplementation cache_get cache_put metadataURI
                    imageUrl cache key io) = cache ∧
     reads (createImageImplementation cache_get cache_put metadataURI
              imageUrl cache key io)
       = match r with Ok uri => [uri] | Failed _ => [] end).
Proof.
  intros Hlaw. unfold createImageImplementation.
  destruct (cache_get cache key) as [r|] eqn:Hget.
  - split_and!; [|done|].
    + destruct r as [uri|st]; [|simpl; by rewrite Hget].
      destruct (read io uri) as [data|?]; [|simpl; by rewrite Hget].
      destruct (readImageFromStream io data) as [[?|]|?];
        simpl; by rewrite Hget.
    + intros r' [= <-]. destruct r as [uri|st]; [|done].
      destruct (read io uri) as [data|?]; [|done].
      by destruct (readImageFromStream io data) as [[?|]|?].
  - split_and!; [| |done].
    + destruct (read io (metadataURI key)) as [data|st].
      * destruct (imageUrl data) as [uri|]; [|simpl; by rewrite Hlaw].
        destruct (read io uri) as [data'|?]; [|simpl; by rewrite Hlaw].
        destruct (readImageFromStream io data') as [[?|]|?];
          simpl; by rewrite Hlaw.
      * simpl. by rewrite Hlaw.
    + intros _. destruct (read io (metadataURI key)) as [data|st].
      * destruct (imageUrl data) as [uri|]; [|by eexists].
        destruct (read io uri) as [data'|?]; [|by eexists].
        destruct (readImageFromStream io data') as [[?|]|?]; by eexists.
      * by eexists.
Qed.
End bing_facts.

Section bing_examples.
Import BingImageLayer Scenario.

(** C7 with the cache a finite map: the network is down at the first call
    for key 7, which caches the failure; two later calls return it without
    reading anything although the network is up again. *)
Lemma failed_metadata_fetch_witness :
  createImageImplementation map_get map_put (λ _, "metadata") Some ∅ 7 io_down
    = mkCreated (map_put ∅ 7 (Failed unreachable)) ["metadata"]
                (Failed unreachable) ∧
  lookups map_get map_put (λ _, "metadata") Some
          (map_put ∅ 7 (Failed unreachable)) 7 [io_up; io_up]
    = (map_put ∅ 7 (Failed unreachable), [],
       [Failed unreachable; Failed unreachable]).
Proof.
  destruct (failed_metadata_fetch_is_memoized (Image := string)
              map_get map_put (λ _ : nat, "metadata") Some ∅ 7)
    as (_ & H & _).
  - intros c k v. apply lookup_insert_eq.
  - destruct (H io_down unreachable) as [H1 H2]; [reflexivity..|].
    split; [exact H1|exact (H2 [io_up; io_up])].
Defined.
(** X1 with the cache a finite map. *)
Lemma cached_key_witness :
  is_Some (map_get
             (cache_after
                (createImageImplementation map_get map_put (λ _, "metadata")
                   Some ∅ 7 io_up)) 7) ∧
  reads (createImageImplementation map_get map_put (λ _, "metadata") Some
           (map_put ∅ 7 (Ok "image")) 7 io_up) = ["image"].
Proof.
  split.
  - apply (cached_key_is_not_fetched_again
             map_get map_put (λ _ : nat, "metadata") Some ∅ 7 io_up).
    intros c k v. apply lookup_insert_eq.
  - destruct (cached_key_is_not_fetched_again
                map_get map_put (λ _ : nat, "metadata") Some
                (map_put ∅ 7 (Ok "image")) 7 io_up) as (_ & _ & H).
    + intros c k v. apply lookup_insert_eq.
    + destruct (H (Ok "image")) as [_ Hreads]; [apply lookup_insert_eq|].
      exact Hreads.
Defined.
End bing_examples.

(** ** SentryTracker: further properties *)

Section tracker_more_facts.
Import SentryTracker TrackerCalls.
Context {T : Type}.
Implicit Types (s : t T) (l : list (ListEntry T)) (le e : ListEntry T).
Implicit Types (ptr : Token) (d : Disposer T).

(** X3.  Starting from [reset], whatever [use] and [flush] calls are made, the
    entries in the list have tokens that differ from one another. *)
Theorem tokens_stay_distinct (calls : list (call T)) s :
  after_calls reset calls = Some s → wf s.
Proof.
  assert (Hgen : ∀ s0, wf s0 → after_calls s0 calls = Some s → wf s).
  { induction calls as [|[data token|maxCount d] calls IH]; intros s0 Hwf; simpl.
    - by intros [= <-].
    - destruct (use s0 data token) as [[s1 p]|] eqn:Hu; [|done].
      apply IH. by eapply use_wf.
    - apply IH. by apply flush_wf. }
  apply Hgen, reset_wf.
Qed.

Lemma unlink_Some_iff ptr l :
  is_Some (unlink ptr l) ↔ ptr ∈ tokens l.
Proof.
  split; [|apply unlink_is_Some].
  intros [[e r] (l1 & l2 & -> & _ & <-)%unlink_Some].
  unfold tokens. rewrite fmap_app, fmap_cons, elem_of_app, elem_of_cons. auto.
Qed.

Lemma use_token_valid_iff s data ptr :
  is_Some (use s data (Some ptr)) ↔ valid_token s ptr.
Proof.
  unfold valid_token, live_tokens, entries, tokens, use.
  rewrite fmap_app, elem_of_app. fold (tokens (ahead s)) (tokens (behind s)).
  rewrite <- !unlink_Some_iff.
  destruct (unlink ptr (ahead s)) as [[e r]|]; [split; eauto|].
  destruct (unlink ptr (behind s)) as [[e r]|]; [split; eauto|].
  split; [by intros [? ?]|]. by intros [[? ?]|[? ?]].
Qed.

Lemma flush_entries_Permutation s maxCount d :
  entries (after (flush maxCount d s)) ++ erased (flush maxCount d s)
    ≡ₚ entries s.
Proof.
  destruct (flush_spec maxCount d s) as (u & Hb & He & Ha & Hlen).
  rewrite Ha, He. unfold entries. cbn [ahead behind]. rewrite app_nil_l.
  rewrite Hb, <- !app_assoc. apply Permutation_app_head.
  rewrite (Permutation_app_comm u), app_assoc.
  apply Permutation_app_tail.
  generalize (visited (flush maxCount d s)). intros v.
  induction v as [|x v IH]; [done|]. rewrite !filter_cons.
  destruct (disposed_by d x); simpl.
  - by rewrite <- Permutation_middle, IH.
  - by rewrite IH.
Qed.

(** X4.  What [use] does.  Without a token it always succeeds, hands back a
    token that no entry had and puts one new entry, with the data given,
    at the front of the list.  With a token it succeeds exactly when the
    token is valid; it then hands the same token back and moves the entry
    of that token to the front of the list, ahead of the marker: the
    entries are the same as before, data included, whatever [data] is
    passed. *)
Theorem use_moves_or_creates s data :
  (∃ ptr, use s data None
          = Some ({| ahead := mkListEntry data ptr :: ahead s;
                     behind := behind s |}, ptr) ∧
          ¬ valid_token s ptr) ∧
  (∀ ptr, is_Some (use s data (Some ptr)) ↔ valid_token s ptr) ∧
  (∀ ptr s' ptr', use s data (Some ptr) = Some (s', ptr') →
     ptr' = ptr ∧
     entries s' ≡ₚ entries s ∧
     ∃ e rest, ahead s' = e :: rest ∧ _token e = ptr ∧ e ∈ entries s).
Proof.
  split_and!.
  - exists (new_Token s). split; [done|]. apply new_Token_fresh.
  - intros ptr. apply use_token_valid_iff.
  - intros ptr s' ptr'. unfold use, entries.
    destruct (unlink ptr (ahead s)) as [[e r]|] eqn:Ha.
    + intros [= <- <-]. cbn [ahead behind].
      apply unlink_Some in Ha as (l1 & l2 & Hl & -> & Ht).
      split_and!; [done| |].
      * rewrite Hl. by rewrite <- Permutation_middle.
      * exists e, (l1 ++ l2). split_and!; [done..|].
        rewrite Hl, !elem_of_app, elem_of_cons. auto.
    + destruct (unlink ptr (behind s)) as [[e r]|] eqn:Hb; [|done].
      intros [= <- <-]. cbn [ahead behind].
      apply unlink_Some in Hb as (l1 & l2 & Hl & -> & Ht).
      split_and!; [done| |].
      * rewrite Hl. by rewrite <- !Permutation_middle.
      * exists e, (ahead s). split_and!; [done..|].
        rewrite Hl, !elem_of_app, elem_of_cons. auto.
Qed.

(** X5.  [flush] loses no entry and makes none up: the entries left and the
    entries erased are, together, the entries there were; the entries left
    keep their order and are all behind the marker; at most [maxCount]
    are erased.  With [maxCount = 0] nothing is visited or erased, and
    still the marker moves to the front. *)
Theorem flush_conserves_entries s maxCount d :
  entries (after (flush maxCount d s)) ++ erased (flush maxCount d s)
    ≡ₚ entries s ∧
  entries (after (flush maxCount d s)) `sublist_of` entries s ∧
  ahead (after (flush maxCount d s)) = [] ∧
  length (erased (flush maxCount d s)) ≤ maxCount ∧
  flush 0 d s = {| after := {| ahead := []; behind := entries s |};
                   visited := []; erased := [] |}.
Proof.
  split; [apply flush_entries_Permutation|].
  destruct (flush_spec maxCount d s) as (u & Hb & He & Ha & Hlen).
  rewrite Ha, He. unfold entries. cbn [ahead behind]. rewrite app_nil_l.
  split_and!; [|done|by rewrite <- He|].
  - rewrite Hb. apply sublist_app; [done|]. apply sublist_app; [|done].
    apply sublist_filter.
  - unfold flush. by destruct (behind s).
Qed.

(** X6.  The token of an erased entry is deleted: passing it to [use] after the
    [flush] is undefined.  The tokens of the entries left are still good. *)
Theorem flush_invalidates_erased_tokens s maxCount d data :
  wf s →
  (∀ e, e ∈ erased (flush maxCount d s) →
        use (after (flush maxCount d s)) data (Some (_token e)) = None) ∧
  (∀ e, e ∈ entries (after (flush maxCount d s)) →
        is_Some (use (after (flush maxCount d s)) data (Some (_token e)))).
Proof.
  intros Hwf. split.
  - intros e He.
    destruct (use (after (flush maxCount d s)) data (Some (_token e)))
      as [[s' p]|] eqn:Hu; [exfalso|done].
    assert (Hv : valid_token (after (flush maxCount d s)) (_token e)).
    { apply (use_token_valid_iff _ data). by rewrite Hu. }
    pose proof (flush_entries_Permutation s maxCount d) as Hperm.
    unfold wf, live_tokens, tokens in Hwf. rewrite <- Hperm in Hwf.
    rewrite fmap_app in Hwf. apply NoDup_app in Hwf as (_ & Hdisj & _).
    apply (Hdisj (_token e)); [exact Hv|by apply list_elem_of_fmap_2].
  - intros e He. apply use_token_valid_iff.
    by apply list_elem_of_fmap_2.
Qed.
End tracker_more_facts.

(** ** PriorityUpdateQueue: further properties *)

Section queue_more_facts.
Import PriorityUpdateQueue QueueLog.
Context {P : Type} (ltb : P → P → bool).
Implicit Types (q l : list (Task P)) (t task : Task P).

(** One [run], taken apart: the sorted vector is the queue left, then the
    task chosen, then canceled tasks. *)
Lemma run_decomposition q :
  q ≠ [] →
  (∃ below task dropped,
      std_sort ltb q = below ++ task :: dropped ∧
      Forall (λ t, discarded t = true) dropped ∧
      discarded task = false ∧
      run ltb q = (below, function task))
  ∨ (Forall (λ t, discarded t = true) q ∧ run ltb q = ([], None)).
Proof.
  intros Hq.
  assert (Hrun : run ltb q
    = let '(task, below) := pop_loop (reverse (std_sort ltb q)) in
      (reverse below, function task)) by by destruct q.
  rewrite Hrun. clear Hrun.
  destruct (pop_loop_spec (reverse (std_sort ltb q)))
    as [(dr & task & below & Hrev & Hdr & Htask & ->)|[Hall ->]].
  - left. exists (reverse below), task, (reverse dr). split_and!; try done.
    + rewrite <- (reverse_involutive (std_sort ltb q)), Hrev.
      by rewrite reverse_app, reverse_cons, <- app_assoc.
    + by apply Forall_reverse.
  - right. split; [|done].
    rewrite <- (std_sort_Permutation ltb q). by rewrite Forall_reverse in Hall.
Qed.

Lemma filter_all_discarded l :
  Forall (λ t, discarded t = true) l →
  filter (λ t, discarded t = false) l = [].
Proof.
  induction 1 as [|t l Ht _ IH]; [done|].
  rewrite filter_cons, decide_False by congruence. done.
Qed.

Lemma run_frames_empty n :
  run_frames ltb n [] = ([], replicate n None).
Proof. induction n as [|n IH]; [done|]. simpl. by rewrite IH. Qed.

(** X7.  A queue is worked off in as many frames as it has tasks: the queue is
    then empty, and the operations run are, each once, the operations of
    the tasks that were not canceled; a canceled task is never run. *)
Theorem run_frames_runs_every_task_once q n :
  length q ≤ n →
  ∃ rans,
    run_frames ltb n q = ([], rans) ∧
    length rans = n ∧
    operations_run rans
      ≡ₚ omap function (filter (λ t, discarded t = false) q).
Proof.
  revert q. induction n as [|n IH]; intros q Hlen.
  - destruct q; [|simpl in Hlen; lia]. by exists [].
  - destruct (decide (q = [])) as [->|Hq].
    { exists (replicate (S n) None). rewrite run_frames_empty.
      split_and!; [done|by rewrite length_replicate|].
      unfold operations_run. simpl. clear. by induction n. }
    cbn [run_frames].
    destruct (run_decomposition q Hq)
      as [(below & task & dropped & Hs & Hdr & Htask & ->)|[Hall ->]].
    + assert (Hperm : q ≡ₚ below ++ task :: dropped)
        by by rewrite <- Hs, std_sort_Permutation.
      destruct (IH below) as (rans & -> & Hn & Hops).
      { apply Permutation_length in Hperm.
        rewrite length_app in Hperm. simpl in Hperm. lia. }
      exists (function task :: rans). split_and!; [done|simpl; lia|].
      rewrite Hperm, filter_app, filter_cons, decide_True by done.
      rewrite (filter_all_discarded dropped) by done.
      rewrite omap_app. unfold operations_run in *. simpl.
      destruct (function task) as [op|]; simpl.
      * by rewrite <- Permutation_middle, app_nil_r, Hops.
      * by rewrite app_nil_r, Hops.
    + exists (replicate (S n) None). simpl. rewrite run_frames_empty.
      split_and!; [done|simpl; by rewrite length_replicate|].
      rewrite filter_all_discarded by done. unfold operations_run. simpl.
      clear. by induction n.
Qed.

(** X8.  [run] "chooses the highest priority task in its queue and runs it":
    when [<] on priorities is a strict weak ordering, as [std::sort] asks
    (a strict order in which not being less is transitive too, which
    excludes a priority that is not a number), the task whose operation
    is run is one of the queue's tasks that are not canceled, no such task
    compares above it, and the tasks left in the queue are a part of the
    queue, in ascending order. *)
Theorem run_picks_a_highest_task q :
  (∀ a b, ltb a b = true → ltb b a = false) →
  (∀ a b c, ltb a b = true → ltb b c = true → ltb a c = true) →
  (∀ a b c, ltb a b = false → ltb b c = false → ltb a c = false) →
  q ≠ [] →
  (∃ task,
      task ∈ q ∧ discarded task = false ∧
      (run ltb q).2 = function task ∧
      (∀ t, t ∈ q → discarded t = false → comp ltb task t = false) ∧
      (run ltb q).1 ++ [task] ⊆+ q ∧
      ascending ltb (run ltb q).1)
  ∨ (Forall (λ t, discarded t = true) q ∧ run ltb q = ([], None)).
Proof.
  intros Hasym Htrans Hnegtrans Hq.
  destruct (run_decomposition q Hq)
    as [(below & task & dropped & Hs & Hdr & Htask & ->)|?]; [left|by right].
  pose proof (std_sort_ascending ltb Hasym Htrans Hnegtrans q) as Hasc.
  pose proof (std_sort_Permutation ltb q) as Hperm.
  rewrite Hs in Hasc, Hperm. unfold ascending in Hasc.
  pose proof (StronglySorted_app_1_l _ _ _ Hasc) as Hbelow.
  exists task. cbn [fst snd]. split_and!; [|done|done| | |done].
  - rewrite <- Hperm, elem_of_app, elem_of_cons. auto.
  - intros t Ht Hnd. rewrite <- Hperm in Ht.
    apply elem_of_app in Ht as [Ht|Ht].
    + apply (StronglySorted_app_1_elem_of _ _ _ t task Hasc);
        [done|apply list_elem_of_here].
    + apply elem_of_cons in Ht as [->|Ht].
      * unfold comp. destruct (get_priority task) as [p|]; [|done].
        destruct (ltb p p) eqn:Hpp; [|done]. by rewrite (Hasym _ _ Hpp) in Hpp.
      * apply (proj1 (Forall_forall _ _) Hdr) in Ht. congruence.
  - rewrite <- Hperm. rewrite (cons_middle task below dropped), app_assoc.
    apply submseteq_inserts_r. done.
Qed.
End queue_more_facts.

(** ** VSGContextImpl: further properties *)

Section context_more_facts.
Import VSGContextImpl DisposalLog.
Context {Object User : Type}.
Implicit Types (s : t Object User) (q : list (list Object)).
Implicit Types (x : Object) (o : option Object) (c : cycle Object).

Lemma back_emplace_back_concat_eq q x :
  q ≠ [] → concat (back_emplace_back q x) = concat q ++ [x].
Proof.
  induction q as [|a q IH]; [done|]. intros _.
  destruct q as [|b r].
  - simpl. by rewrite !app_nil_r.
  - change (a ++ concat (back_emplace_back (b :: r) x)
            = (a ++ concat (b :: r)) ++ [x]).
    rewrite IH by done. by rewrite app_assoc.
Qed.

Lemma queue_nonempty_length q1 q2 :
  length q1 = length q2 → q2 ≠ [] → q1 ≠ [].
Proof. intros Hlen Hq ->. by destruct q2. Qed.

Lemma dispose_concat s o :
  disposer s = None → _disposal_queue s ≠ [] →
  concat (_disposal_queue (dispose s o))
  = concat (_disposal_queue s) ++ omap id [o].
Proof.
  intros Hd Hq. unfold dispose. destruct o as [x|]; simpl.
  - rewrite Hd. simpl. by apply back_emplace_back_concat_eq.
  - by rewrite app_nil_r.
Qed.

Lemma disposes_concat s objs :
  disposer s = None → _disposal_queue s ≠ [] →
  concat (_disposal_queue (disposes s objs))
  = concat (_disposal_queue s) ++ omap id objs.
Proof.
  revert s. induction objs as [|o objs IH]; intros s Hd Hq.
  - simpl. by rewrite app_nil_r.
  - change (disposes s (o :: objs)) with (disposes (dispose s o) objs).
    rewrite IH.
    + rewrite dispose_concat by done. rewrite <- app_assoc. f_equal.
      by destruct o.
    + by rewrite dispose_disposer.
    + eapply queue_nonempty_length; [apply dispose_length|done].
Qed.

Lemma update_concat s :
  (update s).2 ++ concat (_disposal_queue (update s).1)
  = concat (_disposal_queue s).
Proof.
  unfold update. destruct (viewer s); [|done].
  destruct (_disposal_queue s) as [|front rest] eqn:Hq; simpl.
  - by rewrite Hq.
  - rewrite concat_app. simpl. by rewrite !app_nil_r.
Qed.

Lemma run_cycle_concat s c :
  disposer s = None → _disposal_queue s ≠ [] →
  (run_cycle s c).2 ++ concat (_disposal_queue (run_cycle s c).1)
  = concat (_disposal_queue s)
    ++ omap id (before_update c ++ after_update c).
Proof.
  intros Hd Hq. rewrite run_cycle_eq. cbn [fst snd].
  rewrite disposes_concat.
  - rewrite app_assoc, update_concat, disposes_concat by done.
    by rewrite omap_app, app_assoc.
  - by rewrite update_disposer, disposes_disposer.
  - eapply queue_nonempty_length; [|exact Hq].
    by rewrite update_length, disposes_length.
Qed.

(** X9.  No reference is lost and none is made up: what the updates have
    released and what the deque still holds are, together, what the deque
    held at first and the non-null objects disposed of since; the deque
    keeps its number of collections. *)
Theorem disposal_conserves_objects s cs :
  disposer s = None →
  _disposal_queue s ≠ [] →
  concat (run_cycles s cs).2 ++ concat (_disposal_queue (run_cycles s cs).1)
    ≡ₚ concat (_disposal_queue s) ++ disposed_objects cs ∧
  length (_disposal_queue (run_cycles s cs).1) = length (_disposal_queue s).
Proof.
  intros Hd Hq. split; [|apply run_cycles_length].
  revert s Hd Hq. induction cs as [|c cs IH]; intros s Hd Hq.
  - simpl. by rewrite app_nil_r.
  - rewrite run_cycles_cons. cbn [fst snd concat].
    unfold disposed_objects. rewrite bind_cons. fold (disposed_objects cs).
    rewrite <- app_assoc, IH.
    + rewrite !app_assoc. apply Permutation_app_tail.
      by rewrite run_cycle_concat.
    + by rewrite run_cycle_disposer.
    + eapply queue_nonempty_length; [apply run_cycle_length|done].
Qed.

Lemma run_cycles_quiet s k :
  viewer s = true →
  k ≤ length (_disposal_queue s) →
  run_cycles s (replicate k quiet)
  = ({| viewer := viewer s;
        disposer := disposer s;
        _disposal_queue := drop k (_disposal_queue s) ++ replicate k [];
        user := user s |},
     take k (_disposal_queue s)).
Proof.
  revert s. induction k as [|k IH]; intros s Hv Hk.
  - simpl. rewrite app_nil_r. by destruct s.
  - change (replicate (S k) quiet) with (@quiet Object :: replicate k quiet).
    rewrite run_cycles_cons, run_cycle_eq. cbn [fst snd quiet before_update after_update disposes foldl].
    unfold update. rewrite Hv.
    destruct (_disposal_queue s) as [|front rest] eqn:Hq;
      [simpl in Hk; lia|].
    simpl in Hk.
    rewrite IH by (simpl; (done || (rewrite length_app; simpl; lia))).
    simpl. f_equal.
    + f_equal. rewrite drop_app_le by lia. by rewrite <- app_assoc.
    + f_equal. by rewrite take_app_le by lia.
Qed.

(** X10.  In a context that has its viewer, as many cycles without a
    disposal as the deque has collections empty it: the updates release
    the collections one per cycle, oldest first, and every collection is
    left empty.  This holds with or without a custom disposer. *)
Theorem quiet_cycles_empty_the_queue s :
  viewer s = true →
  run_cycles s (replicate (length (_disposal_queue s)) quiet)
  = ({| viewer := viewer s;
        disposer := disposer s;
        _disposal_queue := replicate (length (_disposal_queue s)) [];
        user := user s |},
     _disposal_queue s).
Proof.
  intros Hv. rewrite run_cycles_quiet by done.
  by rewrite drop_all, firstn_all.
Qed.

Lemma back_emplace_back_snoc (front : list (list Object)) back x :
  back_emplace_back (front ++ [back]) x = front ++ [back ++ [x]].
Proof.
  induction front as [|a front IH]; [done|].
  simpl. rewrite IH. by destruct (front ++ [back]) eqn:Hf;
    [destruct front; discriminate|].
Qed.

Lemma disposes_snoc s objs front back :
  disposer s = None →
  _disposal_queue s = front ++ [back] →
  _disposal_queue (disposes s objs) = front ++ [back ++ omap id objs].
Proof.
  revert s back. induction objs as [|o objs IH]; intros s back Hd Hq.
  - simpl. by rewrite app_nil_r.
  - change (disposes s (o :: objs)) with (disposes (dispose s o) objs).
    destruct o as [x|].
    + rewrite (IH _ (back ++ [x])).
      * simpl. by rewrite <- app_assoc.
      * by rewrite dispose_disposer.
      * unfold dispose. rewrite Hd. simpl.
        by rewrite Hq, back_emplace_back_snoc.
    + by apply IH.
Qed.

Lemma run_cycle_without_viewer s c :
  viewer s = false →
  run_cycle s c = (disposes s (before_update c ++ after_update c), []).
Proof.
  intros Hv. rewrite run_cycle_eq, update_without_viewer
    by by rewrite disposes_viewer.
  unfold disposes. by rewrite foldl_app.
Qed.

(** X22.  In a context whose viewer is null, [update] returns at once: no
    cycle releases anything, whatever is disposed of meanwhile.  With no
    custom disposer, every non-null object disposed of stays in the
    collection at the back of the deque, after what that collection
    held, in the order of the calls; the other collections are as they
    were. *)
Theorem update_without_viewer_releases_nothing s cs :
  viewer s = false →
  (run_cycles s cs).2 = replicate (length cs) [] ∧
  viewer (run_cycles s cs).1 = false ∧
  (disposer s = None →
   ∀ front back,
     _disposal_queue s = front ++ [back] →
     _disposal_queue (run_cycles s cs).1
     = front ++ [back ++ disposed_objects cs]).
Proof.
  intros Hv. split_and!.
  - revert s Hv. induction cs as [|c cs IH]; intros s Hv; [done|].
    rewrite run_cycles_cons, run_cycle_without_viewer by done.
    cbn [fst snd length replicate]. f_equal. apply IH.
    by rewrite disposes_viewer.
  - by rewrite run_cycles_viewer.
  - intros Hd front back. revert s back Hv Hd.
    induction cs as [|c cs IH]; intros s back Hv Hd Hq.
    + simpl. by rewrite app_nil_r.
    + rewrite run_cycles_cons, run_cycle_without_viewer by done.
      cbn [fst snd].
      rewrite (IH _ (back ++ omap id (before_update c ++ after_update c))).
      * unfold disposed_objects. rewrite bind_cons.
        by rewrite <- app_assoc.
      * by rewrite disposes_viewer.
      * by rewrite disposes_disposer.
      * by apply disposes_snoc.
Qed.
End context_more_facts.

(** ** BingImageLayer: further properties *)

Section bing_more_facts.
Import BingImageLayer BingLayerState.
Context {TileKey URI Content Image Cache : Type}.
Context (cache_get : Cache → TileKey → option (Result URI)).
Context (cache_put : Cache → TileKey → Result URI → Cache).
Context (metadataURI : TileKey → URI) (imageUrl : Content → option URI).
Context (new_cache : Cache).
Implicit Types (cache : Cache) (key : TileKey) (st : Status).
Implicit Types (io : IOOptions URI Content Image).

(** X11.  Only the outcome of the metadata read is cached.  With the image URI
    of a key cached, each call reads that URI again and returns what this
    read and the decoding give: a call that fails because the image cannot
    be read leaves the cache as it is, and the next call succeeds when the
    image can be read. *)
Theorem image_read_failure_is_not_memoized cache key uri io1 io2 st data image :
  cache_get cache key = Some (Ok uri) →
  read io1 uri = Failed st →
  read io2 uri = Ok data →
  readImageFromStream io2 data = Ok (Some image) →
  createImageImplementation cache_get cache_put metadataURI imageUrl
    cache key io1 = mkCreated cache [uri] (Failed st) ∧
  lookups cache_get cache_put metadataURI imageUrl cache key [io1; io2]
  = (cache, [uri; uri], [Failed st; Ok (image, key)]).
Proof.
  intros Hhit H1 H2 Himg.
  assert (Hc1 : createImageImplementation cache_get cache_put metadataURI
                  imageUrl cache key io1 = mkCreated cache [uri] (Failed st)).
  { unfold createImageImplementation. by rewrite Hhit, H1. }
  assert (Hc2 : createImageImplementation cache_get cache_put metadataURI
                  imageUrl cache key io2
                = mkCreated cache [uri] (Ok (image, key))).
  { unfold createImageImplementation. by rewrite Hhit, H2, Himg. }
  split; [done|]. cbn [lookups]. rewrite Hc1. cbn [cache_after reads result].
  by rewrite Hc2.
Qed.

(** X12.  Closing the layer and opening it again starts from a cache just
    constructed: whatever had been cached, a failure included, the next
    call for a key reads the metadata of that key first.  When the parent's
    open fails, [openImplementation] returns that status and leaves the
    layer as it is; a call on a closed layer is undefined. *)
Theorem reopening_forgets_cached_results (l : layer Cache) parent key io :
  (∀ k, cache_get new_cache k = None) →
  (failed parent = false →
   (openImplementation new_cache parent (closeImplementation l)).2 = StatusOK ∧
   ∃ l' more r,
     createImage cache_get cache_put metadataURI imageUrl
       (openImplementation new_cache parent (closeImplementation l)).1 key io
     = Some (l', metadataURI key :: more, r)) ∧
  (failed parent = true →
   openImplementation new_cache parent l = (l, parent)) ∧
  createImage cache_get cache_put metadataURI imageUrl
    (closeImplementation l) key io = None.
Proof.
  intros Hnew. split_and!; [| |done].
  - intros Hok. unfold openImplementation. rewrite Hok. split; [done|].
    unfold createImage. cbn [fst _tileURICache].
    unfold createImageImplementation. rewrite Hnew.
    destruct (read io (metadataURI key)) as [data|st].
    + destruct (imageUrl data) as [uri|]; [|by eexists _, _, _].
      destruct (read io uri) as [data'|?]; [|by eexists _, _, _].
      destruct (readImageFromStream io data') as [[?|]|?]; by eexists _, _, _.
    + by eexists _, _, _.
  - intros Hf. unfold openImplementation. by rewrite Hf.
Qed.
End bing_more_facts.

(** ** deduceContentTypeFromStream *)

Section content_type_facts.
Import Byte ContentType.
Implicit Types (data stream sig : list byte).

(** The characters [strncmp] looks at: those of the literal up to and
    including its first NUL. *)
Lemma strncmp_equal_starts_with data lit n :
  n ≤ length lit →
  strncmp_equal data lit n = starts_with (upto_nul (take n lit)) data.
Proof.
  revert data lit. induction n as [|n IH]; intros data lit Hn;
    [rewrite take_0; simpl; by destruct data|].
  destruct lit as [|c2 r2]; [simpl in Hn; lia|]. simpl in Hn.
  destruct data as [|c1 r1].
  - simpl. by case_decide.
  - cbn [strncmp_equal take upto_nul].
    repeat case_decide; subst; cbn [starts_with]; repeat case_decide;
      try done.
    apply IH. lia.
Qed.

Lemma starts_with_cons c sig d data :
  starts_with (c :: sig) (d :: data)
  = if decide (d = c) then starts_with sig data else false.
Proof. done. Qed.

Lemma starts_with_prefix sig data :
  starts_with sig data = true ↔ sig `prefix_of` data.
Proof.
  revert data. induction sig as [|c sig IH]; intros data; simpl.
  - split; [intros _; apply prefix_nil|done].
  - destruct data as [|d data]; [split; [done|by intros ?%prefix_nil_not]|].
    destruct (decide (d = c)) as [->|Hne].
    + rewrite IH. split; [apply prefix_cons|apply prefix_cons_inv_2].
    + split; [done|]. by intros ?%prefix_cons_inv_1.
Qed.

Lemma starts_with_take sig data n :
  length sig ≤ n → starts_with sig (take n data) = starts_with sig data.
Proof.
  revert data n. induction sig as [|c sig IH]; intros data n Hn; [done|].
  simpl in Hn. destruct n as [|n]; [lia|].
  destruct data as [|d data]; [done|]. simpl.
  destruct (decide (d = c)); [|done]. apply IH. lia.
Qed.

Lemma first_signature_take data :
  first_signature signatures (take 16 data) = first_signature signatures data.
Proof.
  unfold signatures. cbn [first_signature].
  by rewrite !starts_with_take by (simpl; lia).
Qed.

(** The function as a table lookup: nothing for a stream whose length, as
    an [unsigned int], is under 16; otherwise the type of the first
    signature that the stream starts with. *)
Lemma deduceContentTypeFromStream_signatures stream :
  deduceContentTypeFromStream stream
  = if (Z.of_nat (length stream) mod 2 ^ 32 <? 16)%Z then ""
    else first_signature signatures stream.
Proof.
  unfold deduceContentTypeFromStream.
  destruct (Z.of_nat (length stream) mod 2 ^ 32 <? 16)%Z; [done|].
  rewrite <- first_signature_take. cbv zeta.
  destruct (take 16 stream) as [|d0 rest] eqn:Hdata; [done|].
  destruct d0; try reflexivity;
    rewrite ?strncmp_equal_starts_with by (simpl; lia);
    repeat match goal with
           | |- context [upto_nul ?l] =>
               let r := eval vm_compute in (upto_nul l) in
               change (upto_nul l) with r
           end;
    cbn [signatures first_signature];
    rewrite ?starts_with_cons; repeat case_decide; try done.
  - destruct rest as [|d1 rest]; [done|]. rewrite starts_with_cons.
    destruct d1; reflexivity.
  - by destruct (starts_with _ rest), (starts_with _ rest).
Qed.

Lemma first_signature_in table data :
  first_signature table data = "" ∨
  ∃ sig, (sig, first_signature table data) ∈ table ∧ sig `prefix_of` data.
Proof.
  induction table as [|[sig type] table IH]; [by left|]. simpl.
  destruct (starts_with sig data) eqn:Hs.
  - right. exists sig. split; [apply list_elem_of_here|].
    by apply starts_with_prefix.
  - destruct IH as [?|(sig' & Hin & Hp)]; [by left|right].
    exists sig'. split; [by apply list_elem_of_further|done].
Qed.

(** X13.  A stream of fewer than 16 bytes has no type deduced, whatever it
    starts with.  For a longer one (of less than 4 GiB, so that its length
    fits the [unsigned int]), a type is deduced exactly when the stream
    starts with one of the signatures of that type. *)
Theorem deduced_type_by_signature stream :
  (Z.of_nat (length stream) < 2 ^ 32)%Z →
  (length stream < 16 → deduceContentTypeFromStream stream = "") ∧
  (16 ≤ length stream →
   ∀ type, type ≠ "" →
     (deduceContentTypeFromStream stream = type
      ↔ ∃ sig, (sig, type) ∈ signatures ∧ sig `prefix_of` stream)).
Proof.
  intros Hlt. rewrite deduceContentTypeFromStream_signatures.
  rewrite Z.mod_small by lia. split.
  - intros Hshort. by rewrite (proj2 (Z.ltb_lt _ _)) by lia.
  - intros Hlong type Htype. rewrite (proj2 (Z.ltb_ge _ _)) by lia. split.
    + intros <-.
      by destruct (first_signature_in signatures stream) as [?|?].
    + intros (sig & Hin & [k ->]). revert Hin. unfold signatures.
      rewrite !elem_of_cons, elem_of_nil.
      intros [?|[?|[?|[?|[?|[?|[?|[?|[]]]]]]]]]; simplify_eq; reflexivity.
Qed.
End content_type_facts.

(** ** findReaderWriter *)

Section reader_facts.
Import Byte ImageReaders.
Context (READ_ISTREAM : Z).
Implicit Types (rw : ReaderWriter) (rws : list ReaderWriter) (ext : string).

Lemma ReaderWriter_nested_ind (P : ReaderWriter → Prop) :
  (∀ rws, Forall P rws → P (CompositeReaderWriter rws)) →
  (∀ id features, P (Reader id features)) →
  ∀ rw, P rw.
Proof.
  intros Hc Hr. fix IH 1. intros [rws|id features]; [|apply Hr].
  apply Hc. induction rws as [|rw rws IHl]; constructor; [apply IH|apply IHl].
Qed.

Lemma find_in_composite ext rw rws :
  find_in READ_ISTREAM ext (CompositeReaderWriter (rw :: rws))
  = match find_in READ_ISTREAM ext rw with
    | Some output => Some output
    | None => find_in READ_ISTREAM ext (CompositeReaderWriter rws)
    end.
Proof. done. Qed.

Lemma leaves_composite rw rws :
  leaves (CompositeReaderWriter (rw :: rws))
  = leaves rw ++ leaves (CompositeReaderWriter rws).
Proof. done. Qed.

Lemma find_in_first_leaf ext rw :
  find_in READ_ISTREAM ext rw
  = head (filter (λ r, reads_istream READ_ISTREAM ext r = true) (leaves rw)).
Proof.
  induction rw as [rws IH|id features] using ReaderWriter_nested_ind.
  - induction IH as [|rw rws Hrw _ IHl]; [done|].
    rewrite find_in_composite, leaves_composite, filter_app, Hrw, IHl.
    by destruct (filter _ (leaves rw)).
  - cbn [find_in leaves]. rewrite filter_cons, filter_nil.
    destruct (reads_istream _ _ _) eqn:Hr; by rewrite ?decide_True, ?decide_False by congruence.
Qed.

Lemma leaves_are_readers rw r :
  r ∈ leaves rw → ∃ id features, r = Reader id features.
Proof.
  induction rw as [rws IH|id features] using ReaderWriter_nested_ind.
  - induction IH as [|rw rws Hrw _ IHl]; [by intros ?%elem_of_nil|].
    rewrite leaves_composite, elem_of_app. intros [?|?]; auto.
  - intros ->%list_elem_of_singleton. eauto.
Qed.

(** X15.  [findReaderWriter] returns the first reader, in the order of the
    list with composites opened up in place, that has [READ_ISTREAM] for
    the extension.  What it returns is never a composite, and it returns
    null exactly when no reader at any depth has [READ_ISTREAM] for the
    extension. *)
Theorem findReaderWriter_first_reader ext rws :
  findReaderWriter READ_ISTREAM ext rws
  = head (filter (λ r, reads_istream READ_ISTREAM ext r = true)
                 (leaves (CompositeReaderWriter rws))) ∧
  (∀ rw, findReaderWriter READ_ISTREAM ext rws = Some rw →
         rw ∈ leaves (CompositeReaderWriter rws) ∧
         reads_istream READ_ISTREAM ext rw = true ∧
         ∃ id features, rw = Reader id features) ∧
  (findReaderWriter READ_ISTREAM ext rws = None ↔
   ∀ r, r ∈ leaves (CompositeReaderWriter rws) →
        reads_istream READ_ISTREAM ext r = false).
Proof.
  unfold findReaderWriter. rewrite find_in_first_leaf. split_and!; [done| |].
  - intros rw Hhead. apply head_Some_elem_of in Hhead.
    apply list_elem_of_filter in Hhead as [Hr Hin].
    split_and!; [done..|]. by eapply leaves_are_readers.
  - rewrite head_None. split.
    + intros Hnil r Hr. destruct (reads_istream _ _ r) eqn:Hreads; [|done].
      assert (r ∈ filter (λ r, reads_istream READ_ISTREAM ext r = true)
                (leaves (CompositeReaderWriter rws))) as Hin
        by by apply list_elem_of_filter.
      rewrite Hnil in Hin. by apply elem_of_nil in Hin.
    + intros Hall. apply elem_of_nil_inv. intros r.
      intros [Hr Hin%Hall]%list_elem_of_filter. congruence.
Qed.
End reader_facts.

(** ** io.services.readImageFromStream *)

Section read_image_facts.
Import Stdlib.Strings.Ascii Byte BingImageLayer ContentType ImageReaders.
Context (READ_ISTREAM : Z) {Image : Type}.
Context (readerWriters : list ReaderWriter).
Context (read_cast : ReaderWriter → string → list byte → Result (option Image)).
Implicit Types (location : list byte) (contentType ext : string).

(** X14.  Every content type that [deduceContentTypeFromStream] can
    deduce is a key of [ext_for_mime_type]: the last search of
    [readImageFromStream] never fails for want of an extension, only for
    want of a reader. *)
Theorem deduced_type_has_extension stream :
  deduceContentTypeFromStream stream = "" ∨
  is_Some (ext_for_mime_type !! deduceContentTypeFromStream stream).
Proof.
  rewrite deduceContentTypeFromStream_signatures.
  destruct (_ <? _)%Z; [by left|].
  destruct (first_signature_in signatures stream)
    as [?|(sig & Hin & _)]; [by left|right].
  revert Hin. generalize (first_signature signatures stream). intros type.
  unfold signatures. rewrite !elem_of_cons, elem_of_nil.
  intros [?|[?|[?|[?|[?|[?|[?|[?|[]]]]]]]]]; simplify_eq; by eexists.
Qed.

Local Abbreviation find := (findReaderWriter READ_ISTREAM).
Local Abbreviation select := (select_reader READ_ISTREAM readerWriters).

Lemma by_mime_type_found contentType rw ext :
  by_mime_type READ_ISTREAM readerWriters contentType = Some (rw, ext) →
  ext_for_mime_type !! contentType = Some ext ∧
  find ext readerWriters = Some rw.
Proof.
  unfold by_mime_type. destruct (ext_for_mime_type !! contentType) as [e|]; [|done].
  destruct (find e readerWriters) as [r|] eqn:Hf; [|done].
  by intros [= <- <-].
Qed.

Lemma by_extension_found contentType rw ext :
  by_extension READ_ISTREAM readerWriters contentType = Some (rw, ext) →
  contentType ≠ "" ∧ ext = contentTypeAsExtension contentType ∧
  find ext readerWriters = Some rw.
Proof.
  unfold by_extension. destruct contentType as [|c ct]; [done|].
  destruct (find _ readerWriters) as [r|] eqn:Hf; [|done].
  by intros [= <- <-].
Qed.

Lemma by_data_found location rw ext :
  by_data READ_ISTREAM readerWriters location = Some (rw, ext) →
  ext_for_mime_type !! deduceContentTypeFromStream location = Some ext ∧
  find ext readerWriters = Some rw.
Proof.
  unfold by_data. destruct (deduceContentTypeFromStream location); [done|].
  apply by_mime_type_found.
Qed.

(** No key of the mime-type map starts with a dot, and the empty string is
    not a key. *)
Lemma ext_for_mime_type_dot s : ext_for_mime_type !! String "."%char s = None.
Proof.
  unfold ext_for_mime_type. apply not_elem_of_list_to_map_1. simpl.
  rewrite !not_elem_of_cons. split_and!; (done || apply not_elem_of_nil).
Qed.

Lemma contentTypeAsExtension_dot contentType :
  ∃ s, contentTypeAsExtension contentType = String "."%char s.
Proof.
  unfold contentTypeAsExtension. destruct contentType as [|c s]; [by eexists|].
  destruct (decide (c = "."%char)) as [->|Hne]; [by eexists|].
  exists (String c s).
  destruct c as [[] [] [] [] [] [] [] []]; done.
Qed.

Lemma contentTypeAsExtension_idemp contentType :
  contentTypeAsExtension (contentTypeAsExtension contentType)
  = contentTypeAsExtension contentType.
Proof. by destruct (contentTypeAsExtension_dot contentType) as [s ->]. Qed.

Lemma find_Some ext rw :
  find ext readerWriters = Some rw →
  rw ∈ leaves (CompositeReaderWriter readerWriters) ∧
  reads_istream READ_ISTREAM ext rw = true.
Proof.
  unfold findReaderWriter. rewrite find_in_first_leaf.
  intros Hhead%head_Some_elem_of.
  by apply list_elem_of_filter in Hhead as [Hr Hin].
Qed.

Lemma select_reader_found location contentType rw ext :
  select location contentType = Some (rw, ext) →
  find ext readerWriters = Some rw ∧
  (ext_for_mime_type !! contentType = Some ext
   ∨ contentType ≠ "" ∧ ext = contentTypeAsExtension contentType
   ∨ ext_for_mime_type !! deduceContentTypeFromStream location = Some ext).
Proof.
  unfold select_reader.
  destruct (by_mime_type _ _ contentType) as [[r e]|] eqn:H1.
  { intros [= <- <-]. apply by_mime_type_found in H1 as [? ?]. auto. }
  destruct (by_extension _ _ contentType) as [[r e]|] eqn:H2.
  { intros [= <- <-]. apply by_extension_found in H2 as (? & ? & ?). auto. }
  intros [? ?]%by_data_found. auto.
Qed.

(** X16.  Whatever the stream and the content type, [readImageFromStream] either
    fails with [ServiceUnavailable], naming the content type, or returns
    what one reader gives: a reader of [options->readerWriters] that is
    not a composite, whose features have [READ_ISTREAM] for the extension
    it is called with; that extension is the one the mime-type map has for
    the content type, or the content type with a leading dot, or the one
    the map has for the type deduced from the data. *)
Theorem readImageFromStream_outcome location contentType :
  readImageFromStream READ_ISTREAM readerWriters read_cast location contentType
  = Failed (mkStatus ServiceUnavailable
              ("No image reader for " +:+ quote +:+ contentType +:+ quote))
  ∨ ∃ rw ext,
      readImageFromStream READ_ISTREAM readerWriters read_cast
        location contentType = read_cast rw ext location ∧
      rw ∈ leaves (CompositeReaderWriter readerWriters) ∧
      reads_istream READ_ISTREAM ext rw = true ∧
      (ext_for_mime_type !! contentType = Some ext
       ∨ contentType ≠ "" ∧ ext = contentTypeAsExtension contentType
       ∨ ext_for_mime_type !! deduceContentTypeFromStream location = Some ext).
Proof.
  unfold readImageFromStream.
  destruct (select location contentType) as [[rw ext]|] eqn:Hsel; [right|by left].
  apply select_reader_found in Hsel as [[? ?]%find_Some ?].
  by exists rw, ext.
Qed.

(** X17.  When no reader has [READ_ISTREAM] for any extension, in particular
    when there is no reader at all, every call fails. *)
Theorem readImageFromStream_without_readers location contentType :
  (∀ rw ext, rw ∈ leaves (CompositeReaderWriter readerWriters) →
             reads_istream READ_ISTREAM ext rw = false) →
  readImageFromStream READ_ISTREAM readerWriters read_cast location contentType
  = Failed (mkStatus ServiceUnavailable
              ("No image reader for " +:+ quote +:+ contentType +:+ quote)).
Proof.
  intros Hnone. unfold readImageFromStream.
  destruct (select location contentType) as [[rw ext]|] eqn:Hsel; [|done].
  apply select_reader_found in Hsel as [[Hin Hr]%find_Some _].
  by rewrite Hnone in Hr.
Qed.

(** X18.  A content type that is not a key of the mime-type map selects the same
    reader, with the same extension hint, whether it is written with its
    leading dot or without. *)
Theorem content_type_with_or_without_dot location contentType :
  contentType ≠ "" →
  ext_for_mime_type !! contentType = None →
  select_reader READ_ISTREAM readerWriters location
    (contentTypeAsExtension contentType)
  = select_reader READ_ISTREAM readerWriters location contentType.
Proof.
  intros Hne Hmime. unfold select_reader, by_mime_type. rewrite Hmime.
  destruct (contentTypeAsExtension_dot contentType) as [s Hs].
  rewrite Hs, ext_for_mime_type_dot, <- Hs.
  unfold by_extension. rewrite contentTypeAsExtension_idemp.
  rewrite Hs at 1. by destruct contentType.
Qed.

(** X19.  With no content type given, a stream of fewer than 16 bytes is handed
    to no reader, whatever it holds. *)
Theorem short_stream_without_content_type location :
  length location < 16 →
  readImageFromStream READ_ISTREAM readerWriters read_cast location ""
  = Failed (mkStatus ServiceUnavailable
              ("No image reader for " +:+ quote +:+ "" +:+ quote)).
Proof.
  intros Hlen. unfold readImageFromStream, select_reader.
  change (by_mime_type READ_ISTREAM readerWriters "") with (@None (ReaderWriter * string)).
  cbn [by_extension]. unfold by_data.
  rewrite deduceContentTypeFromStream_signatures.
  replace (Z.of_nat (length location) mod 2 ^ 32 <? 16)%Z with true; [done|].
  symmetry. apply Z.ltb_lt. rewrite Z.mod_small; lia.
Qed.
End read_image_facts.

(** ** GDAL_VSG_ReaderWriter *)

Section gdal_facts.
Import Byte GDALReader.
Context (READ_ISTREAM : Z) {Object : Type}.
Context (GDAL_readImage : list byte → string → option Object).

Lemma features_lookup ext :
  is_Some (_features READ_ISTREAM !! ext)
  ↔ ext ∈ [".webp"; ".tif"; ".jpg"; ".png"].
Proof.
  unfold _features. rewrite !lookup_insert_is_Some, lookup_empty.
  rewrite !elem_of_cons, elem_of_nil, <-not_eq_None_Some.
  intuition congruence.
Qed.

Lemma gdal_driver_named ext :
  gdal_driver ext ≠ "" ↔ ext ∈ [".webp"; ".tif"; ".jpg"; ".png"].
Proof.
  unfold gdal_driver. rewrite !elem_of_cons, elem_of_nil.
  repeat case_decide; intuition congruence.
Qed.

(** X21.  The extensions that the GDAL reader advertises are those for
    which [read] has a driver name.  [read] gives nothing without options
    or for an extension hint other than [.webp], [.tif], [.jpg] and
    [.png], and otherwise hands the data to GDAL with a driver name that
    is not empty.  When [READ_ISTREAM] is not zero, those four extensions
    are the ones for which [findReaderWriter] finds the reader. *)
Theorem gdal_reader_extensions data reader_id :
  READ_ISTREAM ≠ 0%Z →
  (∀ ext, is_Some (_features READ_ISTREAM !! ext) ↔ gdal_driver ext ≠ "") ∧
  read READ_ISTREAM GDAL_readImage data None = None ∧
  (∀ ext, read READ_ISTREAM GDAL_readImage data (Some ext)
          = if bool_decide (ext ∈ [".webp"; ".tif"; ".jpg"; ".png"])
            then GDAL_readImage data (gdal_driver ext)
            else None) ∧
  (∀ ext,
     ImageReaders.findReaderWriter READ_ISTREAM ext
       [reader READ_ISTREAM reader_id]
     = if bool_decide (ext ∈ [".webp"; ".tif"; ".jpg"; ".png"])
       then Some (reader READ_ISTREAM reader_id) else None).
Proof.
  intros Hmask. split_and!.
  - intros ext. by rewrite features_lookup, gdal_driver_named.
  - done.
  - intros ext. unfold read. case_bool_decide as Hin.
    + apply features_lookup in Hin as [mask ->]. done.
    + destruct (_features READ_ISTREAM !! ext) eqn:Hl; [|done].
      destruct Hin. apply features_lookup. by eexists.
  - intros ext. unfold ImageReaders.findReaderWriter. simpl.
    case_bool_decide as Hin.
    + pose proof Hin as Hin'. apply features_lookup in Hin' as [mask Hl].
      rewrite Hl.
      assert (mask = READ_ISTREAM) as ->.
      { revert Hl. unfold _features.
        rewrite !lookup_insert_Some, lookup_empty. intuition congruence. }
      rewrite Z.land_diag. by rewrite (proj2 (Z.eqb_neq _ _)).
    + destruct (_features READ_ISTREAM !! ext) eqn:Hl; [|done].
      destruct Hin. apply features_lookup. by eexists.
Qed.
End gdal_facts.

(** ** util::as<bool> *)

Section convert_facts.
Import Convert.
Context (toLower : string → string).

(** X20.  [as<bool>] reads back what [toString<bool>] writes, whatever the
    default, as long as [toLower] leaves the two lower-case words as they
    are; and the default is returned exactly for the strings that
    [toLower] turns into none of the six words. *)
Theorem as_bool_toString_bool :
  toLower "true" = "true" →
  toLower "false" = "false" →
  (∀ value default_value,
     as_bool toLower (toString_bool value) default_value = value) ∧
  (∀ str,
     (∀ default_value, as_bool toLower str default_value = default_value)
     ↔ toLower str ∉ ["true"; "yes"; "on"; "false"; "no"; "off"]).
Proof.
  intros Ht Hf. split.
  - intros [] d; unfold as_bool, toString_bool; by rewrite ?Ht, ?Hf.
  - intros str. unfold as_bool. rewrite !not_elem_of_cons.
    repeat case_bool_decide; simpl;
      (split;
       [intros Hd;
        first [ by specialize (Hd false)
              | by specialize (Hd true)
              | split_and!; (done || apply not_elem_of_nil) ]
       |intros (?&?&?&?&?&?&_); done]).
Qed.
End convert_facts.

(** ** The further properties on concrete inputs *)

Section more_examples.
Import Byte Scenario Inputs.

(** A PNG header has its type deduced; the signature alone, 8 bytes, has
    not. *)
Lemma deduced_type_witness :
  ContentType.deduceContentTypeFromStream png_header = "image/png" ∧
  ContentType.deduceContentTypeFromStream png_signature = "" ∧
  ∃ sig, (sig, "image/png") ∈ ContentType.signatures ∧
         sig `prefix_of` png_header.
Proof.
  destruct (deduced_type_by_signature png_header) as [_ Hlong];
    [reflexivity|].
  destruct (deduced_type_by_signature png_signature) as [Hshort _];
    [reflexivity|].
  split; [reflexivity|]. split; [apply Hshort; simpl; lia|].
  apply (Hlong ltac:(simpl; lia) "image/png"); [discriminate|reflexivity].
Defined.

Lemma without_readers_witness :
  ImageReaders.readImageFromStream READ_ISTREAM [] read_with png_header
    "image/png"
  = BingImageLayer.Failed
      (BingImageLayer.mkStatus BingImageLayer.ServiceUnavailable
         ("No image reader for " +:+ ImageReaders.quote +:+ "image/png"
          +:+ ImageReaders.quote)).
Proof.
  apply readImageFromStream_without_readers.
  intros rw ext Hin. simpl in Hin. by apply elem_of_nil in Hin.
Defined.

Lemma content_type_dot_witness :
  ImageReaders.contentTypeAsExtension "png" = ".png" ∧
  ImageReaders.select_reader READ_ISTREAM readers png_header ".png"
  = ImageReaders.select_reader READ_ISTREAM readers png_header "png".
Proof.
  split; [reflexivity|].
  apply (content_type_with_or_without_dot
           READ_ISTREAM readers png_header "png"); [discriminate|reflexivity].
Defined.

Lemma short_stream_witness :
  ImageReaders.readImageFromStream READ_ISTREAM readers read_with
    png_signature ""
  = BingImageLayer.Failed
      (BingImageLayer.mkStatus BingImageLayer.ServiceUnavailable
         ("No image reader for " +:+ ImageReaders.quote +:+ ""
          +:+ ImageReaders.quote)).
Proof.
  apply short_stream_without_content_type. simpl. lia.
Defined.
Lemma tokens_stay_distinct_witness :
  TrackerCalls.after_calls SentryTracker.reset tracker_calls
  = Some {| SentryTracker.ahead := [SentryTracker.mkListEntry "C" 2];
            SentryTracker.behind := [SentryTracker.mkListEntry "A" 1] |} ∧
  SentryTracker.wf {| SentryTracker.ahead := [SentryTracker.mkListEntry "C" 2];
                      SentryTracker.behind := [SentryTracker.mkListEntry "A" 1] |}.
Proof.
  split; [reflexivity|].
  apply (tokens_stay_distinct tracker_calls). reflexivity.
Defined.

Lemma flush_invalidates_witness :
  let s := {| SentryTracker.ahead := [SentryTracker.mkListEntry "C" 3;
                                      SentryTracker.mkListEntry "A" 1];
              SentryTracker.behind := [SentryTracker.mkListEntry "B" 2] |} in
  let s' := SentryTracker.after
              (SentryTracker.flush 10 SentryTracker.accept_all s) in
  SentryTracker.use s' "B" (Some 2) = None ∧
  is_Some (SentryTracker.use s' "A" (Some 1)).
Proof.
  intros s s'.
  destruct (flush_invalidates_erased_tokens s 10 SentryTracker.accept_all "B")
    as [Herased _].
  { apply (bool_decide_unpack _). vm_compute. exact I. }
  destruct (flush_invalidates_erased_tokens s 10 SentryTracker.accept_all "A")
    as [_ Hleft].
  { apply (bool_decide_unpack _). vm_compute. exact I. }
  split.
  - apply (Herased (SentryTracker.mkListEntry "B" 2)). apply list_elem_of_here.
  - apply (Hleft (SentryTracker.mkListEntry "A" 1)).
    apply list_elem_of_further, list_elem_of_here.
Defined.

Lemma run_frames_once_witness :
  ∃ rans,
    PriorityUpdateQueue.run_frames Z.ltb 4 [T1; T4; T2; T3] = ([], rans) ∧
    length rans = 4 ∧
    QueueLog.operations_run rans
      ≡ₚ omap PriorityUpdateQueue.function
           (filter (λ t, PriorityUpdateQueue.discarded t = false)
                   [T1; T4; T2; T3]).
Proof.
  apply (run_frames_runs_every_task_once Z.ltb [T1; T4; T2; T3] 4).
  simpl. lia.
Defined.

Lemma run_picks_witness :
  PriorityUpdateQueue.run Z.ltb [T2; T4; T1] = ([T2], Some (op 1)) ∧
  ((∃ task,
       task ∈ [T2; T4; T1] ∧ PriorityUpdateQueue.discarded task = false ∧
       (PriorityUpdateQueue.run Z.ltb [T2; T4; T1]).2
         = PriorityUpdateQueue.function task ∧
       (∀ t, t ∈ [T2; T4; T1] → PriorityUpdateQueue.discarded t = false →
             PriorityUpdateQueue.comp Z.ltb task t = false) ∧
       (PriorityUpdateQueue.run Z.ltb [T2; T4; T1]).1 ++ [task]
         ⊆+ [T2; T4; T1] ∧
       PriorityUpdateQueue.ascending Z.ltb
         (PriorityUpdateQueue.run Z.ltb [T2; T4; T1]).1)
   ∨ (Forall (λ t, PriorityUpdateQueue.discarded t = true) [T2; T4; T1] ∧
      PriorityUpdateQueue.run Z.ltb [T2; T4; T1] = ([], None))).
Proof.
  split; [reflexivity|].
  apply (run_picks_a_highest_task Z.ltb [T2; T4; T1]).
  - intros a b Hab%Z.ltb_lt. apply Z.ltb_ge. lia.
  - intros a b c Hab%Z.ltb_lt Hbc%Z.ltb_lt. apply Z.ltb_lt. lia.
  - intros a b c Hab%Z.ltb_ge Hbc%Z.ltb_ge. apply Z.ltb_ge. lia.
  - discriminate.
Defined.

Lemma disposal_conserves_witness :
  concat (VSGContextImpl.run_cycles ring3 cycles_X).2
    ++ concat (VSGContextImpl._disposal_queue
                 (VSGContextImpl.run_cycles ring3 cycles_X).1)
    ≡ₚ concat (VSGContextImpl._disposal_queue ring3)
       ++ DisposalLog.disposed_objects cycles_X ∧
  length (VSGContextImpl._disposal_queue
            (VSGContextImpl.run_cycles ring3 cycles_X).1) = 3.
Proof.
  apply (disposal_conserves_objects ring3 cycles_X); [reflexivity|discriminate].
Defined.

Lemma image_read_failure_witness :
  BingImageLayer.lookups map_get map_put (λ _, "metadata") Some
    (map_put ∅ 7 (BingImageLayer.Ok "image")) 7 [io_down; io_up]
  = (map_put ∅ 7 (BingImageLayer.Ok "image"), ["image"; "image"],
     [BingImageLayer.Failed unreachable; BingImageLayer.Ok ("image", 7)]).
Proof.
  apply (image_read_failure_is_not_memoized
           map_get map_put (λ _ : nat, "metadata") Some
           (map_put ∅ 7 (BingImageLayer.Ok "image")) 7 "image"
           io_down io_up unreachable "image" "image").
  - apply lookup_insert_eq.
  - reflexivity.
  - reflexivity.
  - reflexivity.
Defined.

Lemma reopening_witness :
  let l := BingLayerState.mkLayer
             (Some (map_put ∅ 7 (BingImageLayer.Failed unreachable))) in
  let reopened :=
    (BingLayerState.openImplementation ∅ BingLayerState.StatusOK
       (BingLayerState.closeImplementation l)).1 in
  ∃ l' more r,
    BingLayerState.createImage map_get map_put (λ _, "metadata") Some
      reopened 7 io_up
    = Some (l', "metadata" :: more, r).
Proof.
  intros l reopened.
  destruct (reopening_forgets_cached_results
              map_get map_put (λ _ : nat, "metadata") Some ∅ l
              BingLayerState.StatusOK 7 io_up) as (Hopen & _).
  - intros k. apply lookup_empty.
  - destruct Hopen as [_ Hcall]; [reflexivity|]. exact Hcall.
Defined.

Lemma as_bool_witness :
  Convert.as_bool lower (Convert.toString_bool true) false = true ∧
  Convert.as_bool lower (Convert.toString_bool false) true = false.
Proof.
  destruct (as_bool_toString_bool lower) as [Hround _];
    [reflexivity|reflexivity|].
  split; apply Hround.
Defined.

(** With [READ_ISTREAM] as in the examples, a GDAL reader alone is found
    for [.tif] and not for [.bmp]. *)
Lemma gdal_reader_witness :
  ImageReaders.findReaderWriter READ_ISTREAM ".tif"
    [GDALReader.reader READ_ISTREAM 7]
  = Some (GDALReader.reader READ_ISTREAM 7) ∧
  ImageReaders.findReaderWriter READ_ISTREAM ".bmp"
    [GDALReader.reader READ_ISTREAM 7]
  = None.
Proof.
  destruct (gdal_reader_extensions READ_ISTREAM
              (λ _ _, @None unit) [] 7) as (_ & _ & _ & Hfind);
    [discriminate|].
  split; [exact (Hfind ".tif") | exact (Hfind ".bmp")].
Defined.

(** Three quiet cycles on a deque of three collections release A, then
    B, then nothing, and leave the deque empty. *)
Lemma quiet_cycles_witness :
  VSGContextImpl.run_cycles ring_AB (replicate 3 DisposalLog.quiet)
  = (VSGContextImpl.mk true None [[]; []; []] tt, [["A"]; ["B"]; []]).
Proof.
  apply (quiet_cycles_empty_the_queue ring_AB). reflexivity.
Defined.

(** The same deque with a null viewer: four cycles, X being disposed of
    in the first, release nothing; A and B stay and X joins the back
    collection. *)
Lemma update_without_viewer_witness :
  (VSGContextImpl.run_cycles ring_AB_no_viewer cycles_X).2
  = [[]; []; []; []] ∧
  VSGContextImpl._disposal_queue
    (VSGContextImpl.run_cycles ring_AB_no_viewer cycles_X).1
  = [["A"]; ["B"]; ["X"]].
Proof.
  destruct (update_without_viewer_releases_nothing ring_AB_no_viewer cycles_X)
    as (Hlog & _ & Hq); [reflexivity|].
  split; [exact Hlog|].
  exact (Hq eq_refl [["A"]; ["B"]] [] eq_refl).
Defined.

(** The third hypothesis on [<] is needed.  With a priority that is not a
    number, [<] is still asymmetric and transitive, but the sort leaves
    the priorities 1, 5, not a number, 3 in this order, which is not
    ascending, and [run] runs the task of priority 3 while the task of
    priority 5 is queued. *)
Lemma run_with_a_priority_not_a_number :
  (∀ a b, lt_or_nan a b = true → lt_or_nan b a = false) ∧
  (∀ a b c, lt_or_nan a b = true → lt_or_nan b c = true
            → lt_or_nan a c = true) ∧
  lt_or_nan (Some 3%Z) None = false ∧
  lt_or_nan None (Some 5%Z) = false ∧
  lt_or_nan (Some 3%Z) (Some 5%Z) = true ∧
  PriorityUpdateQueue.std_sort lt_or_nan tasks_with_nan = tasks_with_nan ∧
  PriorityUpdateQueue.run lt_or_nan tasks_with_nan
  = (take 3 tasks_with_nan, Some (op 4)).
Proof.
  split_and!; try reflexivity.
  - intros [a|] [b|]; simpl; try done.
    intros Hab%Z.ltb_lt. apply Z.ltb_ge. lia.
  - intros [a|] [b|] [c|]; simpl; try done.
    intros Hab%Z.ltb_lt Hbc%Z.ltb_lt. apply Z.ltb_lt. lia.
Qed.
End more_examples.
